(** * qreader: a shallow embedding of the Go pipeline in [qreader.go]

    Reader -> Parser pool -> Reducer pool -> Combiner.  Go [int] and [int64]
    are 64-bit two's complement integers, modelled as [Z] with the
    wrap-around written out; Go strings and byte slices are [string] and
    [list ascii]; Go maps are stdpp [gmap]s, with the (unspecified) map
    iteration order made explicit as a listing of the entries. *)

From Stdlib Require Import ZArith Ascii String Lia.
From stdpp Require Import base gmap list strings sorting.

Open Scope Z_scope.

(* ------------------------------------------------------------------ *)
(** ** 64-bit machine integers *)

Definition two63 : Z := 2 ^ 63.
Definition two64 : Z := 2 ^ 64.

(** Two's-complement wrap-around of Go's [int] / [int64] arithmetic. *)
Definition wrap64 (x : Z) : Z := (x + two63) mod two64 - two63.

Definition int64_min : Z := - two63.
Definition int64_max : Z := two63 - 1.
Definition uint64_max : Z := two64 - 1.

(* ------------------------------------------------------------------ *)
(** ** Go standard library pieces used by the program *)

(** [strings.Split(s, sep)] for a one-byte separator: [n] occurrences of
    the separator give [n+1] pieces; the empty string gives [[""]]. *)
Fixpoint split_on (sep : ascii) (s : string) : list string :=
  match s with
  | EmptyString => [EmptyString]
  | String a s' =>
      if Ascii.eqb a sep then EmptyString :: split_on sep s'
      else match split_on sep s' with
           | h :: t => String a h :: t
           | [] => [String a EmptyString]
           end
  end.

(** [strings.HasPrefix] *)
Definition HasPrefix (s p : string) : bool := String.prefix p s.

(** [strings.HasSuffix] *)
Definition HasSuffix (s suf : string) : bool :=
  (String.length suf <=? String.length s)%nat &&
  String.eqb (substring (String.length s - String.length suf)
                        (String.length suf) s) suf.

Definition is_digit (c : ascii) : bool :=
  ((nat_of_ascii "0" <=? nat_of_ascii c) && (nat_of_ascii c <=? nat_of_ascii "9"))%nat.

Definition digit_val (c : ascii) : Z := Z.of_nat (nat_of_ascii c - nat_of_ascii "0").

(** Result of [strconv.ParseUint(s, 10, 64)]. *)
Inductive uint_res := UOk (n : Z) | USyntax | URange.

(** The digit loop of [ParseUint]: a non-digit is a syntax error; the
    first digit that pushes the value past [2^64-1] is a range error
    (reported at once, before the rest of the string is examined). *)
Fixpoint parse_uint_digits (s : string) (n : Z) : uint_res :=
  match s with
  | EmptyString => UOk n
  | String c s' =>
      if is_digit c then
        let n1 := n * 10 + digit_val c in
        if uint64_max <? n1 then URange else parse_uint_digits s' n1
      else USyntax
  end.

Definition ParseUint (s : string) : uint_res :=
  match s with
  | EmptyString => USyntax
  | _ => parse_uint_digits s 0
  end.

(** The value returned by [strconv.Atoi(s)] (= [ParseInt(s, 10, 0)] on a
    64-bit platform; the fast path for short strings agrees with it).  A
    syntax error yields 0; a range error yields the clamped bound.  The
    program discards the error ([bytes1, _ := strconv.Atoi(...)]). *)
Definition Atoi (s : string) : Z :=
  match s with
  | EmptyString => 0
  | String c s1 =>
      let '(neg, body) :=
        if Ascii.eqb c "-" then (true, s1)
        else if Ascii.eqb c "+" then (false, s1)
        else (false, s) in
      match ParseUint body with
      | USyntax => 0
      | URange => if neg then int64_min else int64_max
      | UOk un =>
          if negb neg && (two63 <=? un) then int64_max
          else if neg && (two63 <? un) then int64_min
          else if neg then - un else un
      end
  end.

(* ------------------------------------------------------------------ *)
(** ** Parser *)

(** [type conn struct { orig string; resp string; bytes int }] *)
Record conn := mkConn { orig : string; resp : string; bytes : Z }.

(** The zero value of [conn]. *)
Definition zero_conn : conn := mkConn "" "" 0.

Definition tab : ascii := Ascii.ascii_of_nat 9.
Definition newline : ascii := Ascii.ascii_of_nat 10.

(** One iteration of the loop body of [Parser.Parse]:
    [None] is a run-time panic (index out of range: [line[0]] on an empty
    line, [data[2]], [data[4]], [data[16]] or [data[18]] on a short line),
    [Some None] is [continue] (comment line), [Some (Some c)] appends [c]. *)
Definition parse_line (line : string) : option (option conn) :=
  match line with
  | EmptyString => None
  | String c _ =>
      if Ascii.eqb c "#" then Some None
      else
        let data := split_on tab line in
        match data !! 2%nat, data !! 4%nat, data !! 16%nat, data !! 18%nat with
        | Some o, Some r, Some b1, Some b2 =>
            Some (Some (mkConn o r (wrap64 (Atoi b1 + Atoi b2))))
        | _, _, _, _ => None
        end
  end.

Fixpoint parse_lines (lines : list string) (acc : list conn) : option (list conn) :=
  match lines with
  | [] => Some acc
  | l :: ls =>
      match parse_line l with
      | None => None
      | Some None => parse_lines ls acc
      | Some (Some c) => parse_lines ls (acc ++ [c])
      end
  end.

(** [Parser.Parse]: the batch sent on [outq], or [None] when the goroutine
    panics.  [data_slice := make([]conn, len(lines))] starts the batch with
    [len(lines)] zero-valued records, to which the parsed ones are appended. *)
Definition Parse (fileslice : list ascii) : option (list conn) :=
  let lines := split_on newline (string_of_list_ascii fileslice) in
  parse_lines lines (repeat zero_conn (length lines)).

(* ------------------------------------------------------------------ *)
(** ** Reducer and Combiner *)

(** The literal address prefix of [Reducer.Reduce]. *)
Definition local_prefix : string := "128.252.".

(** [m[k] += v] on a Go [map[string]int64]: a missing key reads as 0. *)
Definition add_to (m : gmap string Z) (k : string) (v : Z) : gmap string Z :=
  <[k := wrap64 (default 0 (m !! k) + v)]> m.

Definition reduce_step (tt : gmap string Z) (c : conn) : gmap string Z :=
  let tt1 := if HasPrefix (orig c) local_prefix then add_to tt (orig c) (bytes c) else tt in
  if HasPrefix (resp c) local_prefix then add_to tt1 (resp c) (bytes c) else tt1.

(** [Reducer.Reduce]: the partial tally sent on [outq]. *)
Definition Reduce (data_slice : list conn) : gmap string Z :=
  foldl reduce_step ∅ data_slice.

(** The inner loop of [Combiner.Start] over one [subresult], given in the
    order in which the Go map is iterated. *)
Definition merge_sub (final : gmap string Z) (sub : list (string * Z)) : gmap string Z :=
  foldl (fun f '(ip, bytecount) => add_to f ip bytecount) final sub.

(** [Combiner.Start] up to the report: the partial tallies in arrival order,
    each listed in its iteration order. *)
Definition combine (subresults : list (list (string * Z))) : gmap string Z :=
  foldl merge_sub ∅ subresults.

(* ------------------------------------------------------------------ *)
(** ** Combiner.Report *)

(** Descending insertion sort.  [sort.Sort(sort.Reverse(int64arr))] is not
    stable, but on a list of integers every sort yields the same list. *)
Fixpoint insert_desc (x : Z) (l : list Z) : list Z :=
  match l with
  | [] => [x]
  | y :: l' => if y <=? x then x :: l else y :: insert_desc x l'
  end.

Definition sort_desc (l : list Z) : list Z := foldr insert_desc [] l.

(** The first loop of [Report], over the entries of [tt] in iteration
    order.  [keys := make([]int64, len(tt))] starts with [len(tt)] zeros.
    When [swapped[v]] already exists the extended [list] is a local copy
    that is never stored back, so [swapped] keeps only the first key seen
    for each value. *)
Fixpoint report_scan (l : list (string * Z)) (keys : list Z)
    (swapped : gmap Z (list string)) (tbytes : Z)
    : list Z * gmap Z (list string) * Z :=
  match l with
  | [] => (keys, swapped, tbytes)
  | (k, v) :: l' =>
      let swapped' := match swapped !! v with
                      | Some _ => swapped
                      | None => <[v := [k]]> swapped
                      end in
      report_scan l' (keys ++ [v]) swapped' (wrap64 (tbytes + v))
  end.

(** The inner print loop over [ips]: the lines printed, the new
    [num_printed] and [keepgoing]. *)
Fixpoint print_ips (ips : list string) (k : Z) (num_printed : nat)
    : list (string * Z) * nat * bool :=
  match ips with
  | [] => ([], num_printed, true)
  | ip :: ips' =>
      if (num_printed <? 10)%nat then
        let '(o, n, kg) := print_ips ips' k (S num_printed) in ((ip, k) :: o, n, kg)
      else ([], num_printed, false)
  end.

Fixpoint print_keys (keys : list Z) (swapped : gmap Z (list string))
    (num_printed : nat) : list (string * Z) :=
  match keys with
  | [] => []
  | k :: ks =>
      let '(o, n, keepgoing) := print_ips (default [] (swapped !! k)) k num_printed in
      o ++ (if keepgoing then print_keys ks swapped n else [])
  end.

(** [Combiner.Report]: the printed lines, each a pair [(ip, k)] printed as
    [ip] followed by the percentage [k / tbytes * 100], and [tbytes]. *)
Definition Report (tt : list (string * Z)) : list (string * Z) * Z :=
  let '(keys, swapped, tbytes) := report_scan tt (repeat 0 (length tt)) ∅ 0 in
  (print_keys (sort_desc keys) swapped 0, tbytes).

(* ------------------------------------------------------------------ *)
(** ** Reader *)

(** One call of [reader.Read(buffer)]: [RData bs] returns [len(bs)] bytes
    (with a nil error or [io.EOF]); [RError] returns an error other than
    [io.EOF].  Once the list is exhausted every read returns [(0, io.EOF)]. *)
Inductive read_event := RData (bs : list ascii) | RError.

Inductive reader_result := RDone (chunks : list (list ascii)) | RFatal.

Definition zero_byte : ascii := Ascii.ascii_of_nat 0.

(** The inner loop of [Reader.Start] ("truncate newlines at end"), from
    [end_it] down: the chunk sent on [outq], if any, and the new
    [leftovers]. *)
Fixpoint scan (buffer leftovers : list ascii) (end_it : nat)
    : option (list ascii) * list ascii :=
  match end_it with
  | O => (None, leftovers ++ buffer)
  | S e =>
      if Ascii.eqb (nth end_it buffer zero_byte) newline
      then (Some (leftovers ++ take end_it buffer), drop (S end_it) buffer)
      else scan buffer leftovers e
  end.

(** The outer loop of [Reader.Start]; [buffer := make([]byte, bsize)] is
    zero-filled past the [length] bytes the read returned. *)
Fixpoint reader_loop (bsize : nat) (reads : list read_event)
    (leftovers : list ascii) (out : list (list ascii)) : reader_result :=
  match reads with
  | [] => RDone out
  | RError :: _ => RFatal
  | RData bs :: rest =>
      let length := List.length bs in
      if (length =? 0)%nat then RDone out
      else
        let buffer := bs ++ repeat zero_byte (bsize - length) in
        match scan buffer leftovers (length - 1) with
        | (Some c, lo) => reader_loop bsize rest lo (out ++ [c])
        | (None, lo) => reader_loop bsize rest lo out
        end
  end.

(** [Reader.Start]: the chunks sent on [outq] before it is closed. *)
Definition reader_start (bsize : nat) (reads : list read_event) : reader_result :=
  reader_loop bsize reads [] [].

(** The reads of a regular file in blocks of [n] bytes: full blocks, the
    last one possibly shorter. *)
Fixpoint file_reads_fuel (fuel n : nat) (data : list ascii) : list read_event :=
  match fuel, data with
  | O, _ => []
  | _, [] => []
  | S f, _ => RData (take n data) :: file_reads_fuel f n (drop n data)
  end.

(** [internal/poll]'s [FD.Read] hands at most [maxRW = 1 << 30] bytes of
    the buffer to one [read] system call. *)
Definition maxRW : Z := 2 ^ 30.

Definition read_size (bsize : nat) : nat :=
  if Z.of_nat bsize <=? maxRW then bsize else Z.to_nat maxRW.

(** The reads [os.File.Read] delivers for a regular file into a buffer of
    [bsize] bytes: blocks of [read_size bsize] bytes. *)
Definition file_reads (bsize : nat) (data : list ascii) : list read_event :=
  file_reads_fuel (length data) (read_size bsize) data.

(* ------------------------------------------------------------------ *)
(** ** The whole program *)

(** The outside world of [GetReader]: what [os.Open] yields for a path
    ([None] on an error), whether [c.StdoutPipe()] succeeds, and for the
    decompression process [gzcat -c path] the reads its stdout pipe
    delivers together with the process exit status. *)
Record env := {
  env_open : string -> option (list read_event);
  env_pipe_ok : bool;
  env_gzcat : string -> list read_event * Z
}.

Inductive get_reader_result := GROk (reads : list read_event) | GRFatal | GRPanic.

(** [Reader.GetReader].  For a [.gz] file the error of [c.Start()] is
    discarded and the process is never waited for, so its exit status is
    not consulted. *)
Definition GetReader (e : env) (filename : string) : get_reader_result :=
  if HasSuffix filename ".gz" then
    if env_pipe_ok e then GROk (fst (env_gzcat e filename)) else GRPanic
  else
    match env_open e filename with
    | Some reads => GROk reads
    | None => GRFatal
    end.

(** How the process ends: [Error.Fatalln] (exit status 1, nothing else
    printed), an unrecovered panic, or a normal exit after the report. *)
Inductive outcome := Fatal | Panic | Done (report : list (string * Z)).

(** [main] with the four stages run to completion.  The stages only
    exchange whole batches and tallies, so the sequential composition below
    is the result of every interleaving; the Combiner's arrival order and
    the map iteration orders are fixed to one choice, on which the
    [GlobalTally] does not depend (see the theorem on [combine]). *)
Definition run (e : env) (filename : string) (bsize : Z) : outcome :=
  if String.eqb filename "" then Fatal
  else if bsize <=? 0 then Fatal
  else match GetReader e filename with
       | GRFatal => Fatal
       | GRPanic => Panic
       | GROk reads =>
           match reader_start (Z.to_nat bsize) reads with
           | RFatal => Fatal
           | RDone chunks =>
               match mapM Parse chunks with
               | None => Panic
               | Some batches =>
                   let final := combine (map (fun b => map_to_list (Reduce b)) batches) in
                   Done (fst (Report (map_to_list final)))
               end
           end
       end.

(* ------------------------------------------------------------------ *)
(** ** The worker-pool stages [Parser.Start] and [Reducer.Start]

    Both stages have the same shape:
<<
    for x := range self.inq { self.limiter <- 1; go self.Work(x) }
    for { if len(self.limiter) == 0 { close(self.outq); break } else { sleep } }
>>
    where [Work(x)] ends with [self.outq <- f(x); <-self.limiter].  [ok x]
    tells whether [f(x)] returns: when it panics instead (as [Parse] does on
    a short line), the panic is not recovered and ends the whole process,
    so the task never sends and no state of the stage follows; the model
    has no send step for such a task.  The
    state records the input channel (items not yet received and whether the
    upstream closed it), where the [Start] goroutine is, the spawned tasks
    by their progress (running, result sent, slot released), the number of
    tokens in [limiter], the values sent on [outq] and how many times
    [outq] was closed.  [sent_in] is an observation: every item the upstream
    sent.  The downstream stage keeps draining [outq], so a send on it
    completes. *)

Inductive start_phase {A : Type} :=
  | SLoop               (* in [for x := range self.inq] *)
  | SHold (x : A)       (* received [x], blocked on [self.limiter <- 1] *)
  | SDrain              (* polling [len(self.limiter)] *)
  | SDone.              (* closed [outq] and returned *)
Arguments start_phase : clear implicits.

Record stage (A B : Type) := mkStage {
  inq : list A;
  in_closed : bool;
  start : start_phase A;
  running : list A;     (* spawned, [outq <- f(x)] not yet done *)
  sentl : list A;       (* result sent, [<-limiter] not yet done *)
  donel : list A;       (* finished *)
  limiter : nat;
  outq : list B;
  closes : nat;
  sent_in : list A
}.
Arguments mkStage {A B}.
Arguments inq {A B}. Arguments in_closed {A B}. Arguments start {A B}.
Arguments running {A B}. Arguments sentl {A B}. Arguments donel {A B}.
Arguments limiter {A B}. Arguments outq {A B}. Arguments closes {A B}.
Arguments sent_in {A B}.

Section Stage.
Context {A B : Type} (f : A -> B) (ok : A -> bool) (pool : nat).

Inductive stage_step : stage A B -> stage A B -> Prop :=
(** the upstream stage sends [x] on [inq] *)
| step_push x q st r s d l o c si :
    stage_step (mkStage q false st r s d l o c si)
               (mkStage (q ++ [x]) false st r s d l o c (si ++ [x]))
(** the upstream stage closes [inq] *)
| step_close_in q st r s d l o c si :
    stage_step (mkStage q false st r s d l o c si)
               (mkStage q true st r s d l o c si)
(** [for x := range self.inq] receives [x] *)
| step_recv x q b r s d l o c si :
    stage_step (mkStage (x :: q) b SLoop r s d l o c si)
               (mkStage q b (SHold x) r s d l o c si)
(** [self.limiter <- 1] succeeds (fewer than [pool] tokens), then
    [go self.Work(x)] *)
| step_acquire x q b r s d l o c si :
    (l < pool)%nat ->
    stage_step (mkStage q b (SHold x) r s d l o c si)
               (mkStage q b SLoop (r ++ [x]) s d (S l) o c si)
(** the range loop ends: [inq] is closed and empty *)
| step_exit r s d l o c si :
    stage_step (mkStage [] true SLoop r s d l o c si)
               (mkStage [] true SDrain r s d l o c si)
(** a task performs [self.outq <- f(x)] ([f(x)] returned) *)
| step_send x q b st r1 r2 s d l o c si :
    ok x = true ->
    stage_step (mkStage q b st (r1 ++ x :: r2) s d l o c si)
               (mkStage q b st (r1 ++ r2) (s ++ [x]) d l (o ++ [f x]) c si)
(** a task performs [<-self.limiter] *)
| step_release x q b st r s1 s2 d l o c si :
    stage_step (mkStage q b st r (s1 ++ x :: s2) d l o c si)
               (mkStage q b st r (s1 ++ s2) (d ++ [x]) (l - 1) o c si)
(** [len(self.limiter) == 0]: [close(self.outq)] and [break] *)
| step_close q b r s d o c si :
    stage_step (mkStage q b SDrain r s d 0 o c si)
               (mkStage q b SDone r s d 0 o (S c) si).

Definition stage_init : stage A B := mkStage [] false SLoop [] [] [] 0 [] 0 [].

Definition stage_reachable (st : stage A B) : Prop := rtc stage_step stage_init st.

(** The item held by [Start] between receiving it and acquiring a slot. *)
Definition held (p : start_phase A) : list A :=
  match p with SHold x => [x] | _ => [] end.

Definition past_loop (p : start_phase A) : Prop :=
  match p with SDrain | SDone => True | _ => False end.

Definition is_done (p : start_phase A) : bool :=
  match p with SDone => true | _ => false end.

(** The invariant of the protocol: the limiter counts the tasks that have
    not released their slot; every item received is in exactly one place;
    [outq] holds [f x] for every task that has sent; [Start] is past its
    range loop only when [inq] is closed and empty; and [outq] has been
    closed once exactly when [Start] is done, at which point no task is
    outstanding. *)
Definition stage_inv (st : stage A B) : Prop :=
  limiter st = (length (running st) + length (sentl st))%nat /\
  sent_in st ≡ₚ running st ++ sentl st ++ donel st ++ held (start st) ++ inq st /\
  outq st ≡ₚ map f (sentl st ++ donel st) /\
  (past_loop (start st) -> inq st = [] /\ in_closed st = true) /\
  closes st = (if is_done (start st) then 1 else 0)%nat /\
  (is_done (start st) = true -> running st = [] /\ sentl st = []).

(** A measure that every step of the stage itself decreases. *)
Definition phase_weight (p : start_phase A) : nat :=
  match p with SLoop => 2 | SHold _ => 5 | SDrain => 1 | SDone => 0 end.

Definition stage_measure (st : stage A B) : nat :=
  4 * length (inq st) + phase_weight (start st) +
  2 * length (running st) + length (sentl st).
End Stage.

(** [var ParserPool int = 6], [var ReducerPool int = 2] *)
Definition ParserPool : nat := 6.
Definition ReducerPool : nat := 2.

(** Whether [Work(x)] returns: [Parse] panics on a short line (value
    [None]); [Reduce] always returns. *)
Definition Parse_ok (fileslice : list ascii) : bool :=
  match Parse fileslice with Some _ => true | None => false end.
Definition Reduce_ok (data_slice : list conn) : bool := true.

(* ------------------------------------------------------------------ *)
(** ** Specification-side helpers *)

(** Does key [k] occur in a listing of (key, value) entries? *)
Definition key_in (k : string) (l : list (string * Z)) : bool :=
  existsb (fun '(k', _) => String.eqb k' k) l.

(** The exact (unbounded) sum of the values listed under key [k]. *)
Definition sum_key (k : string) (l : list (string * Z)) : Z :=
  fold_right (fun '(k', v) acc => (if String.eqb k' k then v else 0) + acc) 0 l.

(** What one record contributes to key [k] in the spec's reading: its full
    byte count once for each of its two addresses that is [k] and matches. *)
Definition contrib (k : string) (c : conn) : Z :=
  (if String.eqb (orig c) k && HasPrefix k local_prefix then bytes c else 0) +
  (if String.eqb (resp c) k && HasPrefix k local_prefix then bytes c else 0).

(** Is key [k] tallied for record [c]? *)
Definition tallied (k : string) (c : conn) : bool :=
  (String.eqb (orig c) k || String.eqb (resp c) k) && HasPrefix k local_prefix.

Definition sum_contrib (k : string) (batch : list conn) : Z :=
  fold_right (fun c acc => contrib k c + acc) 0 batch.

(** A sample connection-log line: 19 tab-separated fields with the origin
    address in field 2, the responder in field 4 and the two byte counts
    in fields 16 and 18. *)
Definition log_line (o r b1 b2 : string) : string :=
  String.concat (String tab EmptyString)
    ["1"; "C1"; o; "4000"; r; "80"; "tcp"; "http"; "0.5"; "9"; "10"; "SF";
     "T"; "0"; "ShADadfF"; "5"; b1; "6"; b2].

Definition nl : string := String newline EmptyString.

(** A comment line: its first byte is '#'. *)
Definition is_comment (line : string) : bool :=
  match line with String c _ => Ascii.eqb c "#" | EmptyString => false end.

(** Does the loop body of [Parse] get through [line] without panicking? *)
Definition line_ok (line : string) : bool :=
  match parse_line line with None => false | Some _ => true end.

(** The record a line contributes, if any. *)
Definition line_record (line : string) : option conn :=
  match parse_line line with Some (Some c) => Some c | _ => None end.

(** Does the byte [c] occur nowhere in [s]? *)
Definition no_byte (c : ascii) (s : string) : bool :=
  forallb (fun a => negb (Ascii.eqb a c)) (list_ascii_of_string s).

(** The decimal numeral with the digits [ds] (most significant first) and
    its value. *)
Definition digit_char (d : nat) : ascii := ascii_of_nat (48 + d).

Definition digit_string (ds : list nat) : string :=
  string_of_list_ascii (map digit_char ds).

Definition digits_value (ds : list nat) : Z :=
  fold_left (fun a d => a * 10 + Z.of_nat d) ds 0.

(** The bytes the chunks stand for: each chunk followed by the newline at
    which the Reader cut it. *)
Definition flat_chunks (chunks : list (list ascii)) : list ascii :=
  concat (map (fun c => c ++ [newline]) chunks).

(** The content of [buffer] after a read: the bytes returned, then the
    zeros [make] put there. *)
Definition read_buffer (bsize : nat) (r : read_event) : list ascii :=
  match r with
  | RData bs => bs ++ repeat zero_byte (bsize - length bs)
  | RError => []
  end.

(** A read that returns at least one byte and no error other than EOF. *)
Definition good_read (r : read_event) : Prop :=
  match r with RData bs => bs <> [] | RError => False end.

(** The entries of a tally sorted by value, largest first (insertion sort
    on the value alone). *)
Fixpoint insert_pair (p : string * Z) (l : list (string * Z)) : list (string * Z) :=
  match l with
  | [] => [p]
  | q :: l' => if q.2 <=? p.2 then p :: l else q :: insert_pair p l'
  end.

Definition sort_pairs (l : list (string * Z)) : list (string * Z) :=
  foldr insert_pair [] l.

(** The exact sum of the values of a listing. *)
Definition tally_total (l : list (string * Z)) : Z :=
  fold_right (fun kv acc => kv.2 + acc) 0 l.

(** The records of the non-comment lines of a chunk. *)
Definition chunk_records (chunk : list ascii) : list conn :=
  omap line_record (split_on newline (string_of_list_ascii chunk)).




(* ------------------------------------------------------------------ *)
(** ** Lemmas on 64-bit arithmetic and on the tallies *)

Lemma wrap64_add_l x y : wrap64 (wrap64 x + y) = wrap64 (x + y).
Proof.
  unfold wrap64.
  replace ((x + two63) mod two64 - two63 + y + two63)
    with ((x + two63) mod two64 + y) by ring.
  rewrite Zplus_mod_idemp_l. f_equal. f_equal. ring.
Qed.

Lemma wrap64_small x : int64_min <= x <= int64_max -> wrap64 x = x.
Proof.
  unfold wrap64, int64_min, int64_max, two63, two64. intros H.
  rewrite Z.mod_small by lia. lia.
Qed.

Lemma add_to_lookup m k v k' :
  add_to m k v !! k' =
  if String.eqb k k' then Some (wrap64 (default 0 (m !! k) + v)) else m !! k'.
Proof.
  unfold add_to. destruct (String.eqb_spec k k') as [<-|Hne].
  - by rewrite lookup_insert_eq.
  - by rewrite lookup_insert_ne.
Qed.

Lemma sum_key_not_in k l : key_in k l = false -> sum_key k l = 0.
Proof.
  induction l as [|[k' v] l IH]; simpl; [done|].
  intros [Hk Hl]%orb_false_iff. rewrite Hk, IH by done. lia.
Qed.

Lemma merge_sub_lookup final sub k :
  merge_sub final sub !! k =
  if key_in k sub then Some (wrap64 (default 0 (final !! k) + sum_key k sub))
  else final !! k.
Proof.
  revert final. induction sub as [|[ip bc] sub IH]; intros final; [done|].
  unfold merge_sub in *. simpl. rewrite IH, add_to_lookup.
  destruct (String.eqb_spec ip k) as [<-|Hne]; simpl.
  - destruct (key_in ip sub) eqn:Hin.
    + simpl. rewrite wrap64_add_l. do 2 f_equal; lia.
    + rewrite sum_key_not_in by done. do 2 f_equal; lia.
  - destruct (key_in k sub); [|done]. do 2 f_equal; lia.
Qed.

Lemma key_in_app k l1 l2 : key_in k (l1 ++ l2) = key_in k l1 || key_in k l2.
Proof. unfold key_in. by rewrite existsb_app. Qed.

Lemma sum_key_app k l1 l2 : sum_key k (l1 ++ l2) = sum_key k l1 + sum_key k l2.
Proof.
  induction l1 as [|[k' v] l1 IH]; simpl; [done|]. rewrite IH. lia.
Qed.

Lemma combine_from_lookup final subs k :
  foldl merge_sub final subs !! k =
  if key_in k (concat subs)
  then Some (wrap64 (default 0 (final !! k) + sum_key k (concat subs)))
  else final !! k.
Proof.
  revert final. induction subs as [|sub subs IH]; intros final; [done|].
  simpl. rewrite IH, merge_sub_lookup, key_in_app, sum_key_app.
  destruct (key_in k sub) eqn:Hs, (key_in k (concat subs)) eqn:Hr; simpl.
  - rewrite wrap64_add_l. do 2 f_equal; lia.
  - rewrite (sum_key_not_in k (concat subs)) by done. do 2 f_equal; lia.
  - rewrite (sum_key_not_in k sub) by done. do 2 f_equal; lia.
  - done.
Qed.

Lemma combine_lookup subs k :
  combine subs !! k =
  if key_in k (concat subs) then Some (wrap64 (sum_key k (concat subs))) else None.
Proof. unfold combine. rewrite combine_from_lookup, lookup_empty. done. Qed.

Lemma key_in_perm k l1 l2 : l1 ≡ₚ l2 -> key_in k l1 = key_in k l2.
Proof.
  induction 1 as [|[a x] l1 l2 _ IH|[a x] [b y] l|l1 l2 l3 _ IH1 _ IH2].
  - done.
  - simpl. by rewrite IH.
  - simpl. by rewrite !orb_assoc, (orb_comm (String.eqb b k)).
  - congruence.
Qed.

Lemma sum_key_perm k l1 l2 : l1 ≡ₚ l2 -> sum_key k l1 = sum_key k l2.
Proof.
  induction 1 as [|[a x] l1 l2 _ IH|[a x] [b y] l|l1 l2 l3 _ IH1 _ IH2].
  - done.
  - simpl. by rewrite IH.
  - simpl. lia.
  - congruence.
Qed.

Lemma reduce_step_lookup tt c k :
  reduce_step tt c !! k =
  if tallied k c then Some (wrap64 (default 0 (tt !! k) + contrib k c)) else tt !! k.
Proof.
  unfold reduce_step, tallied, contrib.
  destruct c as [o r b]; simpl.
  destruct (String.eqb_spec o k) as [->|Ho], (String.eqb_spec r k) as [->|Hr];
    simpl;
    repeat match goal with
    | |- context [HasPrefix ?x local_prefix] => destruct (HasPrefix x local_prefix)
    end; simpl; rewrite ?add_to_lookup, ?String.eqb_refl;
    repeat match goal with
    | H : ?x <> ?y |- context [String.eqb ?x ?y] => rewrite (proj2 (String.eqb_neq x y) H)
    end; simpl; rewrite ?wrap64_add_l; try done; do 2 f_equal; lia.
Qed.

Lemma contrib_not_tallied k c : tallied k c = false -> contrib k c = 0.
Proof.
  unfold tallied, contrib. intros H.
  apply andb_false_iff in H as [H|H].
  - apply orb_false_iff in H as [-> ->]. done.
  - rewrite !H, !andb_false_r. done.
Qed.

Lemma sum_contrib_not_tallied k batch :
  existsb (tallied k) batch = false -> sum_contrib k batch = 0.
Proof.
  induction batch as [|c batch IH]; simpl; [done|].
  intros [H1 H2]%orb_false_iff. rewrite contrib_not_tallied, IH by done. lia.
Qed.

Lemma reduce_from_lookup tt batch k :
  foldl reduce_step tt batch !! k =
  if existsb (tallied k) batch
  then Some (wrap64 (default 0 (tt !! k) + sum_contrib k batch))
  else tt !! k.
Proof.
  revert tt. induction batch as [|c batch IH]; intros tt; [done|].
  simpl. rewrite IH, reduce_step_lookup.
  destruct (tallied k c) eqn:Hc, (existsb (tallied k) batch) eqn:Hb; simpl.
  - rewrite wrap64_add_l. do 2 f_equal; lia.
  - rewrite (sum_contrib_not_tallied k batch) by done. do 2 f_equal; lia.
  - rewrite (contrib_not_tallied k c) by done. do 2 f_equal; lia.
  - done.
Qed.

Lemma Reduce_lookup batch k :
  Reduce batch !! k =
  if existsb (tallied k) batch then Some (wrap64 (sum_contrib k batch)) else None.
Proof. unfold Reduce. rewrite reduce_from_lookup, lookup_empty. done. Qed.

Lemma tallied_prefix k c : tallied k c = true -> HasPrefix k local_prefix = true.
Proof. unfold tallied. intros [_ H]%andb_true_iff. done. Qed.

Lemma Reduce_keys batch :
  map_Forall (fun k _ => HasPrefix k local_prefix = true) (Reduce batch).
Proof.
  intros k v. rewrite Reduce_lookup.
  destruct (existsb (tallied k) batch) eqn:He; [|done]. intros _.
  apply existsb_exists in He as (c & _ & Hc). by eapply tallied_prefix.
Qed.

Lemma key_in_elem k l : key_in k l = true -> exists v, (k, v) ∈ l.
Proof.
  unfold key_in. intros ([k' v] & Hin & Hk)%existsb_exists.
  apply String.eqb_eq in Hk as ->. exists v. by apply list_elem_of_In.
Qed.

Lemma combine_keys (P : string -> Prop) subs :
  Forall (fun '(k, _) => P k) (concat subs) ->
  map_Forall (fun k _ => P k) (combine subs).
Proof.
  intros HF k v. rewrite combine_lookup.
  destruct (key_in k (concat subs)) eqn:Hk; [|done]. intros _.
  apply key_in_elem in Hk as (w & Hw).
  rewrite Forall_forall in HF. exact (HF _ Hw).
Qed.

Lemma map_to_list_keys (P : string -> Prop) (m : gmap string Z) :
  map_Forall (fun k _ => P k) m -> Forall (fun '(k, _) => P k) (map_to_list m).
Proof.
  intros Hm. apply Forall_forall. intros [k v] Hin.
  apply elem_of_map_to_list in Hin. exact (Hm k v Hin).
Qed.

Lemma combine_reduced_keys batches :
  map_Forall (fun k _ => HasPrefix k local_prefix = true)
    (combine (map (fun b => map_to_list (Reduce b)) batches)).
Proof.
  apply combine_keys. apply Forall_concat, Forall_forall.
  intros l (b & -> & _)%list_elem_of_fmap.
  apply map_to_list_keys, Reduce_keys.
Qed.

Lemma reduced_listings_keys batches subs :
  Forall2 (fun sub b => sub ≡ₚ map_to_list (Reduce b)) subs batches ->
  Forall (fun '(k, _) => HasPrefix k local_prefix = true) (concat subs).
Proof.
  induction 1 as [|sub b subs' bs' Hsub _ IH]; simpl; [constructor|].
  apply Forall_app. split; [|exact IH].
  rewrite Hsub. apply map_to_list_keys, Reduce_keys.
Qed.

Section ReportKeys.
Variable P : string -> Prop.

Lemma report_scan_swapped l keys sw tb :
  map_Forall (fun _ ips => Forall P ips) sw ->
  Forall (fun '(k, _) => P k) l ->
  map_Forall (fun _ ips => Forall P ips) (report_scan l keys sw tb).1.2.
Proof.
  revert keys sw tb. induction l as [|[k v] l IH]; intros keys sw tb Hsw Hl; [done|].
  apply Forall_cons in Hl as [Hk Hl]. simpl. apply IH; [|done].
  destruct (sw !! v); [done|]. apply map_Forall_insert_2; [|done].
  by constructor.
Qed.

Lemma print_ips_keys ips k n :
  Forall P ips -> Forall (fun '(ip, _) => P ip) (print_ips ips k n).1.1.
Proof.
  revert n. induction ips as [|ip ips IH]; intros n Hips; simpl; [done|].
  apply Forall_cons in Hips as [Hip Hips].
  destruct (n <? 10)%nat; simpl; [|done].
  specialize (IH (S n) Hips). destruct (print_ips ips k (S n)) as [[o m] kg].
  simpl in *. by constructor.
Qed.

Lemma print_keys_keys keys sw n :
  map_Forall (fun _ ips => Forall P ips) sw ->
  Forall (fun '(ip, _) => P ip) (print_keys keys sw n).
Proof.
  intros Hsw. revert n. induction keys as [|k keys IH]; intros n; simpl; [done|].
  assert (Hd : Forall P (default [] (sw !! k))).
  { destruct (sw !! k) eqn:E; simpl; [exact (Hsw _ _ E)|done]. }
  pose proof (print_ips_keys _ k n Hd) as Ho.
  destruct (print_ips (default [] (sw !! k)) k n) as [[o m] kg]. simpl in *.
  apply Forall_app; split; [done|]. destruct kg; [apply IH|done].
Qed.

Lemma Report_keys l :
  Forall (fun '(k, _) => P k) l -> Forall (fun '(ip, _) => P ip) (Report l).1.
Proof.
  intros Hl. unfold Report.
  pose proof (report_scan_swapped l (repeat 0 (length l)) ∅ 0
                (map_Forall_empty _) Hl) as Hsw.
  destruct (report_scan l (repeat 0 (length l)) ∅ 0) as [[keys sw] tb].
  simpl in *. by apply print_keys_keys.
Qed.
End ReportKeys.

(* ------------------------------------------------------------------ *)
(** ** Claims *)

(** C1 (corrected): the GlobalTally built by [Combiner.Start] maps a key
    exactly when it occurs in some partial tally, and then to the sum of
    its values in int64 wrap-around arithmetic, which is the exact sum
    whenever that sum lies in the int64 range; the result is the same for
    every arrival order of the partial tallies and every iteration order
    of their entries. *)
Theorem combine_wrapped_sum_order_independent
    (subs : list (list (string * Z))) (k : string) :
  combine subs !! k =
    (if key_in k (concat subs) then Some (wrap64 (sum_key k (concat subs))) else None) /\
  (int64_min <= sum_key k (concat subs) <= int64_max ->
   combine subs !! k =
     if key_in k (concat subs) then Some (sum_key k (concat subs)) else None) /\
  (forall subs', concat subs' ≡ₚ concat subs -> combine subs' = combine subs).
Proof.
  split; [apply combine_lookup|split].
  - intros Hr. rewrite combine_lookup, wrap64_small by done. done.
  - intros subs' Hp. apply map_eq. intros k'.
    rewrite !combine_lookup, (key_in_perm k' _ _ Hp), (sum_key_perm k' _ _ Hp).
    done.
Qed.

Lemma combine_wrapped_sum_order_independent_witness :
  combine [[("128.252.0.1", 1)]; [("128.252.0.1", 2)]] !! "128.252.0.1"%string = Some 3 /\
  combine [[("128.252.0.1", 2)]; [("128.252.0.1", 1)]] =
  combine [[("128.252.0.1", 1)]; [("128.252.0.1", 2)]].
Proof.
  destruct (combine_wrapped_sum_order_independent
              [[("128.252.0.1", 1)]; [("128.252.0.1", 2)]] "128.252.0.1")
    as (_ & H2 & H3).
  split.
  - rewrite H2 by (vm_compute; split; discriminate). reflexivity.
  - apply H3. simpl. apply Permutation_swap.
Defined.

(** C1 (counterexample): two partial tallies that each credit 2^62 bytes to
    the same address leave -2^63, not the sum 2^63, in the GlobalTally. *)
Lemma combine_int64_overflow :
  combine [[("128.252.0.1", 2 ^ 62)]; [("128.252.0.1", 2 ^ 62)]] !! "128.252.0.1"%string
  <> Some (2 ^ 62 + 2 ^ 62).
Proof. vm_compute. discriminate. Qed.

(** C7: in a partial tally from [Reducer.Reduce], key [k] is present
    exactly when some record has [k] as origin or responder and [k] matches
    the prefix, and it then holds the (int64) sum over the records of the
    full byte count once for each of the record's two addresses equal to
    [k] and matching; Scenario B: byte counts 150 and 50 for matching origin
    "128.252.0.1" give 200 and no entry for the non-matching "10.0.0.2". *)
Theorem reduce_credits_matching_addresses (batch : list conn) (k : string) :
  Reduce batch !! k =
    (if existsb (tallied k) batch then Some (wrap64 (sum_contrib k batch)) else None) /\
  match Parse (list_ascii_of_string
                 (log_line "128.252.0.1" "10.0.0.2" "100" "50" ++ nl ++
                  log_line "128.252.0.1" "10.0.0.2" "30" "20")) with
  | Some b => Reduce b !! "128.252.0.1"%string = Some 200 /\
              Reduce b !! "10.0.0.2"%string = None
  | None => False
  end.
Proof.
  split; [apply Reduce_lookup|]. vm_compute. split; reflexivity.
Qed.

(** C10: every key of every partial tally, of the GlobalTally made from
    them in any arrival order and whatever order each tally is iterated in,
    and every address printed by the report for any iteration order of the
    GlobalTally, starts with the literal "128.252.". *)
Theorem local_prefix_only :
  (forall batch, map_Forall (fun k _ => HasPrefix k local_prefix = true) (Reduce batch)) /\
  (forall batches subs,
     Forall2 (fun sub b => sub ≡ₚ map_to_list (Reduce b)) subs batches ->
     map_Forall (fun k _ => HasPrefix k local_prefix = true) (combine subs)) /\
  (forall batches subs l,
     Forall2 (fun sub b => sub ≡ₚ map_to_list (Reduce b)) subs batches ->
     l ≡ₚ map_to_list (combine subs) ->
     Forall (fun '(ip, _) => HasPrefix ip local_prefix = true) (Report l).1) /\
  (forall e filename bsize,
     match run e filename bsize with
     | Done lines => Forall (fun '(ip, _) => HasPrefix ip local_prefix = true) lines
     | _ => True
     end).
Proof.
  split_and!.
  - apply Reduce_keys.
  - intros batches subs Hsubs. apply combine_keys; exact (reduced_listings_keys batches subs Hsubs).
  - intros batches subs l Hsubs Hl. apply Report_keys. rewrite Hl.
    apply map_to_list_keys, combine_keys; exact (reduced_listings_keys batches subs Hsubs).
  - intros e filename bsize. unfold run.
    destruct (String.eqb filename ""); [done|]. destruct (bsize <=? 0); [done|].
    destruct (GetReader e filename); try done.
    destruct (reader_start (Z.to_nat bsize) reads); [|done].
    destruct (mapM Parse chunks) as [batches|]; [|done].
    apply Report_keys, map_to_list_keys, combine_reduced_keys.
Qed.

Lemma local_prefix_only_witness :
  Forall (fun '(ip, _) => HasPrefix ip local_prefix = true)
    (Report (map_to_list (combine
       [map_to_list (Reduce [mkConn "128.252.0.1" "10.0.0.2" 3;
                             mkConn "10.0.0.3" "128.252.0.4" 5])]))).1.
Proof.
  destruct local_prefix_only as (_ & _ & H3 & _).
  apply (H3 [[mkConn "128.252.0.1" "10.0.0.2" 3; mkConn "10.0.0.3" "128.252.0.4" 5]]
            [map_to_list (Reduce [mkConn "128.252.0.1" "10.0.0.2" 3;
                                  mkConn "10.0.0.3" "128.252.0.4" 5])]).
  - constructor; [reflexivity|constructor].
  - reflexivity.
Defined.

(* ------------------------------------------------------------------ *)
(** ** The stage protocol *)

Section StageProofs.
Context {A B : Type} (f : A -> B) (ok : A -> bool) (pool : nat).

Lemma stage_inv_init : stage_inv f (stage_init (A:=A) (B:=B)).
Proof. repeat split; simpl; try done. Qed.

Lemma stage_inv_step st st' :
  stage_inv f st -> stage_step f ok pool st st' -> stage_inv f st'.
Proof.
  intros Hinv Hstep. revert Hinv.
  destruct Hstep; intros (Hl & Hsi & Ho & Hpast & Hc & Hd); unfold stage_inv;
    cbn [inq in_closed start running sentl donel limiter outq closes sent_in] in *;
    rewrite ?length_app in *; simpl in *.
  all: split_and!; try done; try lia;
    try (rewrite Hsi; solve_Permutation);
    try (rewrite Ho, ?map_app; simpl; solve_Permutation).
  all: intros Hp.
  - destruct (Hpast Hp) as [_ ?]; discriminate.
  - by destruct (Hpast Hp) as [-> _].
  - destruct (Hd Hp) as [Hr _]. by destruct r1.
  - destruct (Hd Hp) as [_ Hs]. by destruct s1.
  - destruct r, s; simpl in Hl; [done|lia..].
Qed.
Lemma stage_reachable_inv st : stage_reachable f ok pool st -> stage_inv f st.
Proof.
  unfold stage_reachable. intros Hr.
  assert (Hgen : forall x y, rtc (stage_step f ok pool) x y -> stage_inv f x -> stage_inv f y).
  { induction 1 as [|x y z Hxy _ IH]; [done|].
    intros Hx. apply IH. by eapply stage_inv_step. }
  exact (Hgen _ _ Hr stage_inv_init).
Qed.

Lemma stage_step_in_closed st st' :
  stage_step f ok pool st st' -> in_closed st = true -> in_closed st' = true.
Proof. by destruct 1. Qed.

Lemma stage_progress st :
  (0 < pool)%nat -> stage_inv f st -> in_closed st = true -> closes st = 0%nat ->
  Forall (fun x => ok x = true) (sent_in st) ->
  exists st', stage_step f ok pool st st' /\ (stage_measure st' < stage_measure st)%nat.
Proof.
  intros Hpool (Hl & Hsi & Ho & Hpast & Hc & Hd) Hb Hc0 Hok.
  destruct st as [q b p r s d l o c si]; simpl in *; subst b c.
  destruct r as [|x r].
  2:{ assert (Hx : ok x = true).
      { rewrite Forall_forall in Hok. apply Hok. rewrite Hsi. simpl. constructor. }
      eexists. split; [apply (step_send f ok pool x q true p [] r); exact Hx|].
      unfold stage_measure; simpl. rewrite length_app. simpl. lia. }
  destruct s as [|x s].
  2:{ eexists. split; [apply (step_release f ok pool x q true p [] [] s)|].
      unfold stage_measure; simpl. lia. }
  simpl in Hl. subst l.
  destruct p as [|x| |].
  - destruct q as [|x q].
    + eexists. split; [apply step_exit|]. unfold stage_measure; simpl. lia.
    + eexists. split; [apply step_recv|]. unfold stage_measure; simpl. lia.
  - eexists. split; [by apply step_acquire|]. unfold stage_measure; simpl. lia.
  - eexists. split; [apply step_close|]. unfold stage_measure; simpl. lia.
  - discriminate.
Qed.

Lemma stage_step_sent_in st st' :
  stage_step f ok pool st st' -> in_closed st = true -> sent_in st' = sent_in st.
Proof. destruct 1; simpl; intros; try discriminate; reflexivity. Qed.

Lemma stage_eventually_closes st :
  (0 < pool)%nat -> stage_inv f st -> in_closed st = true ->
  Forall (fun x => ok x = true) (sent_in st) ->
  exists st', rtc (stage_step f ok pool) st st' /\ closes st' = 1%nat.
Proof.
  intros Hpool. remember (stage_measure st) as n eqn:Hn. revert st Hn.
  induction n as [n IH] using lt_wf_ind. intros st -> Hinv Hb Hok.
  destruct (closes st) as [|[|c]] eqn:Hc.
  - destruct (stage_progress st Hpool Hinv Hb Hc Hok) as (st' & Hstep & Hlt).
    destruct (IH _ Hlt st' eq_refl (stage_inv_step _ _ Hinv Hstep)
                (stage_step_in_closed _ _ Hstep Hb)
                ltac:(by rewrite (stage_step_sent_in _ _ Hstep Hb)))
      as (st'' & Hr & Hc'').
    exists st''. split; [|done]. by eapply rtc_l.
  - by exists st.
  - destruct Hinv as (_ & _ & _ & _ & Hcl & _). rewrite Hc in Hcl.
    destruct (is_done (start st)); discriminate.
Qed.

Lemma stage_close_protocol st :
  (0 < pool)%nat -> stage_reachable f ok pool st ->
  ((closes st <= 1) /\
   (closes st = 1 ->
      in_closed st = true /\ inq st = [] /\ running st = [] /\ sentl st = [] /\
      outq st ≡ₚ map f (sent_in st)) /\
   (in_closed st = true -> Forall (fun x => ok x = true) (sent_in st) ->
      exists st', rtc (stage_step f ok pool) st st' /\ closes st' = 1))%nat.
Proof.
  intros Hpool Hr. pose proof (stage_reachable_inv st Hr) as Hinv.
  pose proof Hinv as (Hl & Hsi & Ho & Hpast & Hc & Hd).
  split_and!.
  - rewrite Hc. destruct (is_done (start st)); lia.
  - intros H1. rewrite Hc in H1. destruct (start st) eqn:Hs; try discriminate.
    destruct (Hd eq_refl) as [Hr0 Hs0].
    destruct (Hpast I) as [Hq Hb].
    split_and!; try done.
    rewrite Ho, Hsi, Hr0, Hs0, Hq. simpl. by rewrite !app_nil_r.
  - intros Hb Hok. by apply stage_eventually_closes.
Qed.

Lemma stage_step_sent_ok st st' :
  stage_step f ok pool st st' ->
  Forall (fun x => ok x = true) (sentl st ++ donel st) ->
  Forall (fun x => ok x = true) (sentl st' ++ donel st').
Proof.
  destruct 1; simpl; rewrite ?Forall_app, ?Forall_cons, ?Forall_nil; naive_solver.
Qed.

(** Only results of tasks whose [f] returned are ever sent. *)
Lemma stage_outq_ok st :
  stage_reachable f ok pool st ->
  exists xs, outq st ≡ₚ map f xs /\ Forall (fun x => ok x = true) xs.
Proof.
  intros Hr. destruct (stage_reachable_inv st Hr) as (_ & _ & Ho & _).
  exists (sentl st ++ donel st). split; [done|].
  unfold stage_reachable in Hr.
  assert (Hgen : forall x y, rtc (stage_step f ok pool) x y ->
            Forall (fun x => ok x = true) (sentl x ++ donel x) ->
            Forall (fun x => ok x = true) (sentl y ++ donel y)).
  { induction 1 as [|x y z Hxy _ IH]; [done|].
    intros Hx. apply IH. by eapply stage_step_sent_ok. }
  by apply (Hgen _ _ Hr).
Qed.
(** A run with one item: the upstream sends it and closes [inq]; [Start]
    receives it and spawns its task, which sends its result and releases
    its slot; the range loop ends and [outq] is closed. *)
Lemma stage_one_item_pending x :
  stage_reachable f ok pool (mkStage [x] true SLoop [] [] [] 0 [] 0 [x]).
Proof.
  unfold stage_reachable, stage_init.
  eapply rtc_l; [apply (step_push f ok pool x [])|].
  eapply rtc_l; [apply step_close_in|].
  apply rtc_refl.
Qed.

Lemma stage_one_item_closed x :
  ok x = true -> (0 < pool)%nat ->
  stage_reachable f ok pool (mkStage [] true SDone [] [] [x] 0 [f x] 1 [x]).
Proof.
  intros Hx Hp. unfold stage_reachable.
  etransitivity; [apply (stage_one_item_pending x)|].
  eapply rtc_l; [apply step_recv|].
  eapply rtc_l; [apply step_acquire; exact Hp|].
  eapply rtc_l; [apply (step_send f ok pool x [] true SLoop [] []); exact Hx|].
  eapply rtc_l; [apply (step_release f ok pool x [] true SLoop [] [] [])|].
  eapply rtc_l; [apply step_exit|].
  eapply rtc_l; [apply step_close|].
  apply rtc_refl.
Qed.

(** Two items received and both tasks spawned, none finished yet. *)
Lemma stage_two_tasks_running x y :
  (2 <= pool)%nat ->
  stage_reachable f ok pool (mkStage [] false SLoop [x; y] [] [] 2 [] 0 [x; y]).
Proof.
  intros Hp. unfold stage_reachable, stage_init.
  eapply rtc_l; [apply (step_push f ok pool x [])|].
  eapply rtc_l; [apply (step_push f ok pool y [x])|].
  eapply rtc_l; [apply step_recv|].
  eapply rtc_l; [apply step_acquire; lia|].
  eapply rtc_l; [apply step_recv|].
  eapply rtc_l; [apply step_acquire; lia|].
  apply rtc_refl.
Qed.
End StageProofs.


Lemma parse_lines_spec lines acc :
  parse_lines lines acc =
  if forallb line_ok lines then Some (acc ++ omap line_record lines) else None.
Proof.
  revert acc. induction lines as [|l ls IH]; intros acc; simpl.
  - by rewrite app_nil_r.
  - unfold line_ok at 1, line_record at 1.
    destruct (parse_line l) as [[c|]|]; simpl; rewrite ?IH; [|done|done].
    destruct (forallb line_ok ls); [|done]. by rewrite <-app_assoc.
Qed.





(** C2 (code bug): a chunk holding one well-formed line yields a batch of two
    records: the zero-valued [conn] put there by [make([]conn, len(lines))]
    and the parsed record, not one record per non-skipped line. *)
Lemma parse_batch_has_zero_records :
  Parse (list_ascii_of_string (log_line "128.252.0.1" "10.0.0.2" "100" "50")) =
  Some [zero_conn; mkConn "128.252.0.1" "10.0.0.2" 150].
Proof. vm_compute. reflexivity. Qed.

(** C3 (code bug): when the input ends without a line terminator, the bytes
    after the last newline stay in [leftovers] and are never sent: a
    5-byte file "ab\ncd" read in blocks of 5 yields only "ab", and a
    2-byte file "ab" read in blocks of 2 (Scenario C) yields nothing. *)
Lemma reader_drops_final_partial_line :
  reader_start 5 (file_reads 5 (list_ascii_of_string ("ab" ++ nl ++ "cd"))) =
    RDone [list_ascii_of_string "ab"] /\
  reader_start 2 (file_reads 2 (list_ascii_of_string "ab")) = RDone [].
Proof. split; vm_compute; reflexivity. Qed.

(** C4 (code bug): a short read from the decompression pipe leaves the
    zero bytes of [buffer] past [length] in [leftovers], so a line split
    across the two reads "a\nb" and "c\n" (block size 4) comes out as
    "b", NUL, "c"; and with block size 1 the test [end_it == 0] comes
    before any byte is compared with '\n', so no line of "a\nb\n" is ever
    sent. *)
Lemma reader_block_boundary_defects :
  reader_start 4 [RData (list_ascii_of_string ("a" ++ nl ++ "b"));
                  RData (list_ascii_of_string ("c" ++ nl))] =
    RDone [list_ascii_of_string "a"; ["b"%char; zero_byte; "c"%char]] /\
  reader_start 1 (file_reads 1 (list_ascii_of_string ("a" ++ nl ++ "b" ++ nl))) =
    RDone [].
Proof. split; vm_compute; reflexivity. Qed.




(** C6: in both worker-pool stages ([Parser.Start] with [Parse] and a pool
    of [ParserPool] slots, [Reducer.Start] with [Reduce] and [ReducerPool]
    slots), in every reachable state [outq] has been closed at most once;
    once it is closed, [inq] is closed and drained, no task is still to
    send its result or to release its slot, and [outq] holds one result
    per item received; no panicking [Parse] ever sends; and once [inq] is
    closed, the stage can always run on to the close, provided none of the
    items it received makes its task panic (a panic ends the process). *)
Theorem parser_reducer_close_after_all_tasks :
  (forall st, stage_reachable Parse Parse_ok ParserPool st ->
     ((closes st <= 1) /\
      (closes st = 1 ->
         in_closed st = true /\ inq st = [] /\ running st = [] /\ sentl st = [] /\
         outq st ≡ₚ map Parse (sent_in st)) /\
      Forall (fun o => o <> None) (outq st) /\
      (in_closed st = true -> Forall (fun x => Parse_ok x = true) (sent_in st) ->
         exists st', rtc (stage_step Parse Parse_ok ParserPool) st st' /\ closes st' = 1))%nat) /\
  (forall st, stage_reachable Reduce Reduce_ok ReducerPool st ->
     ((closes st <= 1) /\
      (closes st = 1 ->
         in_closed st = true /\ inq st = [] /\ running st = [] /\ sentl st = [] /\
         outq st ≡ₚ map Reduce (sent_in st)) /\
      (in_closed st = true ->
         exists st', rtc (stage_step Reduce Reduce_ok ReducerPool) st st' /\ closes st' = 1))%nat).
Proof.
  split; intros st Hr.
  - destruct (stage_close_protocol Parse Parse_ok ParserPool st ltac:(unfold ParserPool; lia) Hr)
      as (H1 & H2 & H3).
    split_and!; [exact H1|exact H2| |exact H3].
    destruct (stage_outq_ok Parse Parse_ok ParserPool st Hr) as (xs & Hxs & Hok).
    rewrite Hxs. apply Forall_map. eapply Forall_impl; [exact Hok|].
    intros x. unfold Parse_ok. by destruct (Parse x).
  - destruct (stage_close_protocol Reduce Reduce_ok ReducerPool st ltac:(unfold ReducerPool; lia) Hr)
      as (H1 & H2 & H3).
    split_and!; [exact H1|exact H2|]. intros Hb. apply H3; [exact Hb|].
    apply Forall_forall. intros x _. reflexivity.
Qed.

Lemma parser_reducer_close_after_all_tasks_witness :
  (exists st', rtc (stage_step Parse Parse_ok ParserPool)
     (mkStage [list_ascii_of_string (log_line "128.252.0.1" "10.0.0.2" "1" "2")] true SLoop
        [] [] [] 0 [] 0 [list_ascii_of_string (log_line "128.252.0.1" "10.0.0.2" "1" "2")]) st' /\
     closes st' = 1%nat) /\
  outq (mkStage [] true SDone [] []
          [list_ascii_of_string (log_line "128.252.0.1" "10.0.0.2" "1" "2")] 0
          [Parse (list_ascii_of_string (log_line "128.252.0.1" "10.0.0.2" "1" "2"))] 1
          [list_ascii_of_string (log_line "128.252.0.1" "10.0.0.2" "1" "2")])
    ≡ₚ map Parse [list_ascii_of_string (log_line "128.252.0.1" "10.0.0.2" "1" "2")] /\
  (exists st', rtc (stage_step Reduce Reduce_ok ReducerPool)
     (mkStage [[mkConn "128.252.0.1" "10.0.0.2" 3]] true SLoop [] [] [] 0 [] 0
        [[mkConn "128.252.0.1" "10.0.0.2" 3]]) st' /\ closes st' = 1%nat).
Proof.
  destruct parser_reducer_close_after_all_tasks as [HP HR].
  set (x := list_ascii_of_string (log_line "128.252.0.1" "10.0.0.2" "1" "2")).
  set (y := [mkConn "128.252.0.1" "10.0.0.2" 3]).
  split_and!.
  - destruct (HP _ (stage_one_item_pending Parse Parse_ok ParserPool x)) as (_ & _ & _ & H4).
    apply H4; [reflexivity|]. constructor; [vm_compute; reflexivity|constructor].
  - destruct (HP _ (stage_one_item_closed Parse Parse_ok ParserPool x
                      ltac:(vm_compute; reflexivity) ltac:(unfold ParserPool; lia)))
      as (_ & H2 & _).
    destruct (H2 eq_refl) as (_ & _ & _ & _ & H). exact H.
  - destruct (HR _ (stage_one_item_pending Reduce Reduce_ok ReducerPool y)) as (_ & _ & H3).
    apply H3. reflexivity.
Defined.

(** C8 (code bug): for a [.gz] input the exit status of the decompression
    process is never looked at: when [gzcat] emits part of the data and then
    fails (exit status 1), or fails at once because the file is missing,
    the pipeline ends normally and prints a report, whereas a missing plain
    file is fatal. *)
Lemma gz_failure_not_fatal :
  let trace := list_ascii_of_string (log_line "128.252.0.1" "10.0.0.2" "100" "50" ++ nl) in
  let e := {| env_open := fun _ => None; env_pipe_ok := true;
              env_gzcat := fun _ => (file_reads 64 trace, 1) |} in
  let e_missing := {| env_open := fun _ => None; env_pipe_ok := true;
                      env_gzcat := fun _ => ([], 1) |} in
  snd (env_gzcat e "trace.gz") = 1 /\
  run e "trace.gz" 64 = Done [("128.252.0.1", 150)] /\
  run e_missing "missing.gz" 64 = Done [] /\
  run e_missing "missing.log" 64 = Fatal.
Proof. vm_compute. split_and!; reflexivity. Qed.

(** C9 (code bug): with two addresses of equal total, [swapped[v]] keeps
    only the first address met, and [keys] holds the total twice, so the
    report prints that address twice and never the other one, whichever
    order the map is iterated in. *)
Lemma report_repeats_tied_key :
  Report [("128.252.0.1", 5); ("128.252.0.2", 5)] =
    ([("128.252.0.1", 5); ("128.252.0.1", 5)], 10) /\
  Report [("128.252.0.2", 5); ("128.252.0.1", 5)] =
    ([("128.252.0.2", 5); ("128.252.0.2", 5)], 10).
Proof. split; vm_compute; reflexivity. Qed.

(* ------------------------------------------------------------------ *)
(** ** Further properties of the code *)

(** *** [Reader.Start] *)

Lemma scan_spec buffer lo e :
  (e < length buffer)%nat ->
  match scan buffer lo e with
  | (Some c, lo') => c ++ newline :: lo' = lo ++ buffer
  | (None, lo') => lo' = lo ++ buffer
  end.
Proof.
  induction e as [|e IH]; intros He; simpl; [done|].
  destruct (lookup_lt_is_Some_2 buffer (S e) He) as [x Hx].
  rewrite (nth_lookup_Some _ _ _ _ Hx).
  destruct (Ascii.eqb_spec x newline) as [->|_]; [|apply IH; lia].
  rewrite <-app_assoc. f_equal.
  by rewrite <-(drop_S _ _ _ Hx), firstn_skipn.
Qed.

Lemma flat_chunks_app c1 c2 : flat_chunks (c1 ++ c2) = flat_chunks c1 ++ flat_chunks c2.
Proof. unfold flat_chunks. by rewrite map_app, concat_app. Qed.

Lemma reader_loop_buffers bsize reads lo out :
  Forall good_read reads ->
  exists chunks lo',
    reader_loop bsize reads lo out = RDone chunks /\
    flat_chunks chunks ++ lo' = flat_chunks out ++ lo ++ concat (map (read_buffer bsize) reads).
Proof.
  revert lo out. induction reads as [|r reads IH]; intros lo out Hg.
  - exists out, lo. simpl. by rewrite app_nil_r.
  - apply Forall_cons in Hg as [Hr Hg]. destruct r as [bs|]; [|done]. simpl in Hr |- *.
    assert (Hlen : length bs <> 0%nat) by (intros ?%length_zero_iff_nil; done).
    apply Nat.eqb_neq in Hlen. rewrite Hlen. apply Nat.eqb_neq in Hlen.
    pose proof (scan_spec (bs ++ repeat zero_byte (bsize - length bs)) lo (length bs - 1))
      as Hs.
    rewrite length_app in Hs. specialize (Hs ltac:(lia)).
    destruct (scan _ lo (length bs - 1)) as [[c|] lo1].
    + destruct (IH lo1 (out ++ [c]) Hg) as (chunks & lo' & Hrun & Heq).
      exists chunks, lo'. split; [done|]. rewrite Heq, flat_chunks_app.
      unfold flat_chunks at 2. simpl. rewrite app_nil_r.
      transitivity (flat_chunks out ++ (c ++ newline :: lo1) ++
                    concat (map (read_buffer bsize) reads)).
      { by rewrite <-!app_assoc. }
      rewrite Hs. by rewrite <-!app_assoc.
    + destruct (IH lo1 out Hg) as (chunks & lo' & Hrun & Heq).
      exists chunks, lo'. split; [done|]. rewrite Heq, Hs. by rewrite <-!app_assoc.
Qed.

Lemma file_reads_fuel_buffers fuel bsize data :
  (0 < bsize)%nat -> (length data <= fuel)%nat ->
  Forall good_read (file_reads_fuel fuel bsize data) /\
  exists k, concat (map (read_buffer bsize) (file_reads_fuel fuel bsize data)) =
            data ++ repeat zero_byte k.
Proof.
  intros Hb. revert data. induction fuel as [|fuel IH]; intros data Hd.
  - destruct data; [|simpl in Hd; lia]. split; [done|]. by exists 0%nat.
  - destruct data as [|a d]; [split; [done|]; by exists 0%nat|].
    cbn [file_reads_fuel]. set (data := a :: d).
    destruct (IH (drop bsize data)) as [Hg Hk]; [rewrite length_drop; simpl in *; lia|].
    split.
    + constructor; [|done]. simpl. destruct bsize; [lia|]. done.
    + destruct (decide (length data <= bsize)%nat) as [Hle|Hgt].
      * rewrite (drop_ge data bsize Hle). destruct fuel; simpl.
        all: exists (bsize - length data)%nat; by rewrite (take_ge data bsize Hle), app_nil_r.
      * destruct Hk as [k Hk]. exists k. cbn [map concat read_buffer].
        rewrite Hk, length_take_le by lia. rewrite Nat.sub_diag. simpl.
        by rewrite app_nil_r, app_assoc, firstn_skipn.
Qed.

Lemma flat_chunks_last chunks :
  chunks <> [] -> exists x, flat_chunks chunks = x ++ [newline].
Proof.
  induction chunks as [|c chunks IH]; [done|]. intros _.
  destruct chunks as [|c' chunks].
  - exists c. unfold flat_chunks. simpl. by rewrite app_nil_r.
  - destruct IH as [x Hx]; [done|]. exists (c ++ [newline] ++ x).
    change (flat_chunks (c :: c' :: chunks)) with
      ((c ++ [newline]) ++ flat_chunks (c' :: chunks)).
    rewrite Hx. by rewrite <-!app_assoc.
Qed.

Lemma flat_prefix_of_padded chunks lo data k :
  flat_chunks chunks ++ lo = data ++ repeat zero_byte k ->
  flat_chunks chunks `prefix_of` data.
Proof.
  intros Heq.
  destruct (decide (length (flat_chunks chunks) <= length data)%nat) as [Hle|Hgt].
  - exists (drop (length (flat_chunks chunks)) data).
    assert (Ht := f_equal (take (length (flat_chunks chunks))) Heq).
    rewrite take_app_length, take_app_le in Ht by done.
    set (n := length (flat_chunks chunks)) in *.
    transitivity (take n data ++ drop n data); [by rewrite firstn_skipn|].
    by rewrite <-Ht.
  - destruct chunks as [|c cs]; [simpl in Hgt; lia|].
    destruct (flat_chunks_last (c :: cs)) as [x Hx]; [done|].
    rewrite Hx in Heq, Hgt. rewrite length_app in Hgt. simpl in Hgt.
    assert (Hl := f_equal (fun l => l !! length x) Heq). simpl in Hl.
    rewrite <-app_assoc, lookup_app_r, Nat.sub_diag in Hl by lia.
    rewrite (lookup_app_r data) in Hl by lia. simpl in Hl.
    symmetry in Hl. apply list_elem_of_lookup_2, list_elem_of_In, repeat_spec in Hl.
    vm_compute in Hl. discriminate.
Qed.

Lemma reader_loop_error_eof bsize pre post lo out :
  Forall good_read pre ->
  reader_loop bsize (pre ++ RError :: post) lo out = RFatal /\
  reader_loop bsize (pre ++ RData [] :: post) lo out = reader_loop bsize pre lo out.
Proof.
  revert lo out. induction pre as [|r pre IH]; intros lo out Hg; [done|].
  apply Forall_cons in Hg as [Hr Hg]. destruct r as [bs|]; [|done]. simpl in Hr |- *.
  destruct (Nat.eqb_spec (length bs) 0) as [?%length_zero_iff_nil|_]; [done|].
  destruct (scan _ lo (length bs - 1)) as [[c|] lo1]; by apply IH.
Qed.

(** *** [Parser.Parse] *)

Lemma split_on_app_sep c f t :
  no_byte c f = true -> split_on c (f ++ String c t) = f :: split_on c t.
Proof.
  unfold no_byte. induction f as [|a f IH]; simpl.
  - intros _. by rewrite Ascii.eqb_refl.
  - intros [Ha Hf]%andb_true_iff. apply negb_true_iff in Ha. by rewrite Ha, IH.
Qed.

Lemma split_on_no_sep c f : no_byte c f = true -> split_on c f = [f].
Proof.
  unfold no_byte. induction f as [|a f IH]; simpl; [done|].
  intros [Ha Hf]%andb_true_iff. apply negb_true_iff in Ha. by rewrite Ha, IH.
Qed.

Lemma split_on_join c fields :
  fields <> [] -> Forall (fun f => no_byte c f = true) fields ->
  split_on c (String.concat (String c "") fields) = fields.
Proof.
  induction fields as [|f fs IH]; [done|]. intros _ Hall.
  apply Forall_cons in Hall as [Hf Hfs].
  destruct fs as [|g gs].
  - simpl. by apply split_on_no_sep.
  - change (String.concat (String c "") (f :: g :: gs))
      with (f ++ String c (String.concat (String c "") (g :: gs)))%string.
    rewrite split_on_app_sep by done.
    by rewrite IH.
Qed.

(** *** [strconv.Atoi] on decimal numerals *)

Lemma digit_char_spec d :
  (d < 10)%nat ->
  is_digit (digit_char d) = true /\ digit_val (digit_char d) = Z.of_nat d /\
  Ascii.eqb (digit_char d) "-" = false /\ Ascii.eqb (digit_char d) "+" = false.
Proof.
  intros Hd. do 10 (destruct d as [|d]; [split_and!; reflexivity|]). lia.
Qed.

Lemma digits_fold_ge ds acc :
  0 <= acc -> acc <= fold_left (fun a d => a * 10 + Z.of_nat d) ds acc.
Proof.
  revert acc. induction ds as [|d ds IH]; intros acc Ha; simpl; [lia|].
  etransitivity; [|apply IH]; lia.
Qed.

Lemma digit_string_cons d ds :
  digit_string (d :: ds) = String (digit_char d) (digit_string ds).
Proof. reflexivity. Qed.

Lemma parse_uint_digits_string ds acc :
  0 <= acc <= uint64_max -> Forall (fun d => d < 10)%nat ds ->
  parse_uint_digits (digit_string ds) acc =
    (let v := fold_left (fun a d => a * 10 + Z.of_nat d) ds acc in
     if v <=? uint64_max then UOk v else URange).
Proof.
  revert acc. induction ds as [|d ds IH]; intros acc Ha Hds.
  - cbn. destruct (Z.leb_spec acc uint64_max); [done|lia].
  - apply Forall_cons in Hds as [Hd Hds].
    destruct (digit_char_spec d Hd) as (Hdig & Hval & _).
    rewrite digit_string_cons. cbn [parse_uint_digits fold_left].
    rewrite Hdig, Hval.
    destruct (Z.ltb_spec uint64_max (acc * 10 + Z.of_nat d)) as [Hgt|Hle].
    + pose proof (digits_fold_ge ds (acc * 10 + Z.of_nat d) ltac:(lia)).
      destruct (Z.leb_spec (fold_left (fun a d => a * 10 + Z.of_nat d) ds
                                      (acc * 10 + Z.of_nat d)) uint64_max); [lia|done].
    + apply IH; [lia|done].
Qed.

(** *** [Reducer.Reduce] and [Combiner.Start] *)

Lemma wrap64_add_r x y : wrap64 (x + wrap64 y) = wrap64 (x + y).
Proof. by rewrite (Z.add_comm x), wrap64_add_l, Z.add_comm. Qed.

Lemma key_in_map_to_list (m : gmap string Z) k :
  key_in k (map_to_list m) = match m !! k with Some _ => true | None => false end.
Proof.
  induction m as [|i x m Hi IH] using map_ind.
  - by rewrite map_to_list_empty, lookup_empty.
  - rewrite (key_in_perm k _ _ (map_to_list_insert m i x Hi)). simpl.
    destruct (String.eqb_spec i k) as [<-|Hne].
    + by rewrite lookup_insert_eq.
    + by rewrite lookup_insert_ne.
Qed.

Lemma sum_key_map_to_list (m : gmap string Z) k :
  sum_key k (map_to_list m) = default 0 (m !! k).
Proof.
  induction m as [|i x m Hi IH] using map_ind.
  - by rewrite map_to_list_empty, lookup_empty.
  - rewrite (sum_key_perm k _ _ (map_to_list_insert m i x Hi)). simpl.
    destruct (String.eqb_spec i k) as [<-|Hne].
    + rewrite lookup_insert_eq, IH, Hi. simpl. lia.
    + rewrite lookup_insert_ne by done. rewrite IH. lia.
Qed.

Lemma default_Reduce_lookup b k : default 0 (Reduce b !! k) = wrap64 (sum_contrib k b).
Proof.
  rewrite Reduce_lookup. destruct (existsb (tallied k) b) eqn:E; [done|].
  by rewrite sum_contrib_not_tallied.
Qed.

Lemma wrap64_sum_wrapped {X} (g : X -> Z) (xs : list X) :
  wrap64 (fold_right (fun x acc => wrap64 (g x) + acc) 0 xs) =
  wrap64 (fold_right (fun x acc => g x + acc) 0 xs).
Proof.
  induction xs as [|x xs IH]; simpl; [done|].
  by rewrite wrap64_add_l, <-wrap64_add_r, IH, wrap64_add_r.
Qed.

Lemma combine_reduce_concat (batches : list (list conn)) :
  combine (map (fun b => map_to_list (Reduce b)) batches) = Reduce (concat batches).
Proof.
  apply map_eq. intros k. rewrite combine_lookup, Reduce_lookup.
  assert (Hin : key_in k (concat (map (fun b => map_to_list (Reduce b)) batches)) =
                existsb (tallied k) (concat batches)).
  { induction batches as [|b bs IH]; [done|]. simpl.
    rewrite key_in_app, existsb_app, IH, key_in_map_to_list, Reduce_lookup.
    by destruct (existsb (tallied k) b). }
  assert (Hsum : sum_key k (concat (map (fun b => map_to_list (Reduce b)) batches)) =
                 fold_right (fun b acc => wrap64 (sum_contrib k b) + acc) 0 batches).
  { clear Hin. induction batches as [|b bs IH]; [done|]. simpl.
    by rewrite sum_key_app, IH, sum_key_map_to_list, default_Reduce_lookup. }
  assert (Hc : sum_contrib k (concat batches) =
               fold_right (fun b acc => sum_contrib k b + acc) 0 batches).
  { clear. induction batches as [|b bs IH]; [done|]. simpl. rewrite <-IH.
    clear. induction b as [|c b IH]; simpl; [done|]. rewrite IH. lia. }
  rewrite Hin, Hsum, Hc, wrap64_sum_wrapped. done.
Qed.

Lemma reduce_steps_zero tt n : foldl reduce_step tt (repeat zero_conn n) = tt.
Proof. induction n as [|n IH]; [done|]. exact IH. Qed.

Lemma reduce_zero_padded tt (chunks : list (list ascii)) (f : list ascii -> nat) :
  foldl reduce_step tt
    (concat (map (fun ch => repeat zero_conn (f ch) ++ chunk_records ch) chunks)) =
  foldl reduce_step tt (concat (map chunk_records chunks)).
Proof.
  revert tt. induction chunks as [|ch chunks IH]; intros tt; [done|]. simpl.
  by rewrite !foldl_app, reduce_steps_zero, IH.
Qed.

Lemma mapM_Parse chunks batches :
  mapM Parse chunks = Some batches ->
  batches = map (fun ch => repeat zero_conn (length (split_on newline (string_of_list_ascii ch)))
                           ++ chunk_records ch) chunks.
Proof.
  intros H%mapM_Some_1. induction H as [|ch b chunks bs Hb _ IH]; [done|].
  simpl. rewrite <-IH. f_equal.
  unfold Parse in Hb. rewrite parse_lines_spec in Hb.
  destruct (forallb line_ok _); [|done]. by injection Hb as <-.
Qed.

(** *** [Combiner.Report] *)

Lemma print_ips_count ips k n :
  (n <= 10)%nat ->
  let '(o, m, _) := print_ips ips k n in (length o + n = m /\ m <= 10)%nat.
Proof.
  revert n. induction ips as [|ip ips IH]; intros n Hn; simpl; [lia|].
  destruct (Nat.ltb_spec n 10); simpl; [|lia].
  specialize (IH (S n) ltac:(lia)). destruct (print_ips ips k (S n)) as [[o m] kg].
  simpl. lia.
Qed.

Lemma print_keys_count keys sw n :
  (n <= 10)%nat -> (length (print_keys keys sw n) + n <= 10)%nat.
Proof.
  revert n. induction keys as [|k keys IH]; intros n Hn; simpl; [lia|].
  pose proof (print_ips_count (default [] (sw !! k)) k n Hn) as Hc.
  destruct (print_ips (default [] (sw !! k)) k n) as [[o m] kg].
  rewrite length_app. destruct kg; simpl; [specialize (IH m ltac:(lia))|]; lia.
Qed.

Lemma Report_count l : (length (Report l).1 <= 10)%nat.
Proof.
  unfold Report. destruct (report_scan l _ ∅ 0) as [[keys sw] tb].
  pose proof (print_keys_count (sort_desc keys) sw 0 ltac:(lia)). simpl. lia.
Qed.

Lemma report_scan_keys l keys sw tb : (report_scan l keys sw tb).1.1 = keys ++ map snd l.
Proof.
  revert keys sw tb. induction l as [|[k v] l IH]; intros keys sw tb; simpl.
  - by rewrite app_nil_r.
  - by rewrite IH, <-app_assoc.
Qed.

Lemma report_scan_total l keys sw t :
  (report_scan l keys sw (wrap64 t)).2 = wrap64 (t + tally_total l).
Proof.
  revert keys sw t. induction l as [|[k v] l IH]; intros keys sw t; simpl.
  - by rewrite Z.add_0_r.
  - rewrite wrap64_add_l, IH. f_equal. lia.
Qed.

Lemma report_scan_distinct l keys sw tb :
  NoDup (map snd l) -> (forall v, In v (map snd l) -> sw !! v = None) ->
  (forall k v, In (k, v) l -> (report_scan l keys sw tb).1.2 !! v = Some [k]) /\
  (forall v, ~ In v (map snd l) -> (report_scan l keys sw tb).1.2 !! v = sw !! v).
Proof.
  revert keys sw tb. induction l as [|[k0 v0] l IH]; intros keys sw tb Hnd Hsw; simpl.
  - split; [done|]. done.
  - simpl in Hnd. apply NoDup_cons in Hnd as [Hv0 Hnd]. rewrite list_elem_of_In in Hv0.
    rewrite (Hsw v0 (or_introl eq_refl)).
    destruct (IH (keys ++ [v0]) (<[v0 := [k0]]> sw) (wrap64 (tb + v0)) Hnd) as [H1 H2].
    { intros v Hv. rewrite lookup_insert_ne by (intros ->; contradiction).
      apply Hsw. by right. }
    split.
    + intros k v [Heq|Hin].
      * injection Heq as -> ->. rewrite H2 by done. by rewrite lookup_insert_eq.
      * by apply H1.
    + intros v Hv. rewrite H2 by (intros ?; apply Hv; by right).
      rewrite lookup_insert_ne; [done|]. intros ->. apply Hv. by left.
Qed.

Lemma insert_desc_perm x l : insert_desc x l ≡ₚ x :: l.
Proof.
  induction l as [|y l IH]; simpl; [done|].
  destruct (y <=? x); [done|]. rewrite IH. apply Permutation_swap.
Qed.

Lemma sort_desc_perm l : sort_desc l ≡ₚ l.
Proof.
  induction l as [|x l IH]; simpl; [done|].
  unfold sort_desc in *. simpl. by rewrite insert_desc_perm, IH.
Qed.

Lemma insert_desc_zero ys m :
  Forall (fun y => 0 < y) ys -> insert_desc 0 (ys ++ repeat 0 m) = ys ++ repeat 0 (S m).
Proof.
  induction ys as [|y ys IH]; intros HS; simpl.
  - destruct m; reflexivity.
  - apply Forall_cons in HS as [Hy HS].
    destruct (Z.leb_spec y 0); [lia|]. by rewrite IH.
Qed.

Lemma sort_desc_zeros n vs :
  Forall (fun y => 0 < y) vs -> sort_desc (repeat 0 n ++ vs) = sort_desc vs ++ repeat 0 n.
Proof.
  intros Hvs. unfold sort_desc. rewrite foldr_app.
  assert (Hs : Forall (fun y => 0 < y) (foldr insert_desc [] vs)).
  { change (Forall (fun y => 0 < y) (sort_desc vs)). by rewrite sort_desc_perm. }
  induction n as [|n IH]; simpl; [by rewrite app_nil_r|].
  rewrite IH. by apply insert_desc_zero.
Qed.

Lemma sort_pairs_values l : map snd (sort_pairs l) = sort_desc (map snd l).
Proof.
  assert (Hins : forall p l, map snd (insert_pair p l) = insert_desc p.2 (map snd l)).
  { intros p l'. induction l' as [|q l' IH]; simpl; [done|].
    destruct (q.2 <=? p.2); simpl; [done|]. by rewrite IH. }
  induction l as [|p l IH]; [done|]. unfold sort_pairs, sort_desc in *. simpl.
  by rewrite Hins, IH.
Qed.

Lemma sort_pairs_perm l : sort_pairs l ≡ₚ l.
Proof.
  assert (Hins : forall p l, insert_pair p l ≡ₚ p :: l).
  { intros p l'. induction l' as [|q l' IH]; simpl; [done|].
    destruct (q.2 <=? p.2); [done|]. rewrite IH. apply Permutation_swap. }
  induction l as [|p l IH]; [done|]. unfold sort_pairs in *. simpl.
  by rewrite Hins, IH.
Qed.

Lemma print_keys_zeros sw n m : sw !! 0 = None -> print_keys (repeat 0 m) sw n = [].
Proof. intros H0. induction m as [|m IH]; simpl; [done|]. by rewrite H0. Qed.

Lemma print_keys_sorted P sw m n :
  sw !! 0 = None -> (n <= 10)%nat ->
  (forall k v, In (k, v) P -> sw !! v = Some [k]) ->
  print_keys (map snd P ++ repeat 0 m) sw n = take (10 - n) P.
Proof.
  revert n. induction P as [|[k v] P IH]; intros n H0 Hn HP; simpl.
  - rewrite print_keys_zeros by done. by rewrite take_nil.
  - rewrite (HP k v (or_introl eq_refl)). simpl.
    destruct (Nat.ltb_spec n 10) as [Hlt|Hge].
    + simpl. rewrite IH; [|done|lia|intros; apply HP; by right].
      replace (10 - n)%nat with (S (10 - S n)) by lia. done.
    + replace (10 - n)%nat with 0%nat by lia. done.
Qed.

Lemma report_scan_keep l keys sw tb v x :
  sw !! v = Some x -> (report_scan l keys sw tb).1.2 !! v = Some x.
Proof.
  revert keys sw tb. induction l as [|[k0 v0] l IH]; intros keys sw tb Hv; simpl; [done|].
  apply IH. destruct (sw !! v0) eqn:E; [done|].
  rewrite lookup_insert_ne; [done|]. intros ->. congruence.
Qed.

Lemma report_scan_first k v l keys sw tb :
  sw !! v = None -> (report_scan ((k, v) :: l) keys sw tb).1.2 !! v = Some [k].
Proof.
  intros Hv. simpl. rewrite Hv. apply report_scan_keep. by rewrite lookup_insert_eq.
Qed.

Lemma sort_desc_repeat0 m : sort_desc (repeat 0 m) = repeat 0 m.
Proof.
  induction m as [|m IH]; [done|]. unfold sort_desc in *. simpl. rewrite IH.
  destruct m; reflexivity.
Qed.

Lemma print_keys_zero_key sw k m n :
  sw !! 0 = Some [k] -> (n <= 10)%nat ->
  print_keys (repeat 0 m) sw n = repeat (k, 0) (Nat.min m (10 - n)).
Proof.
  intros H0. revert n. induction m as [|m IH]; intros n Hn; simpl; [done|].
  rewrite H0. simpl. destruct (Nat.ltb_spec n 10).
  - simpl. rewrite IH by lia. replace (10 - n)%nat with (S (10 - S n)) by lia. done.
  - replace (10 - n)%nat with 0%nat by lia. done.
Qed.

(** *** The worker-pool stages *)

Section StageExtra.
Context {A B : Type} (f : A -> B) (ok : A -> bool) (pool : nat).

Lemma stage_step_limiter st st' :
  stage_step f ok pool st st' -> (limiter st <= pool)%nat -> (limiter st' <= pool)%nat.
Proof. destruct 1; simpl; lia. Qed.

Lemma stage_reachable_limiter st :
  stage_reachable f ok pool st -> (limiter st <= pool)%nat.
Proof.
  unfold stage_reachable. intros Hr.
  assert (Hgen : forall x y, rtc (stage_step f ok pool) x y ->
                   (limiter x <= pool)%nat -> (limiter y <= pool)%nat).
  { induction 1 as [|x y z Hxy _ IH]; [done|].
    intros Hx. apply IH. by eapply stage_step_limiter. }
  apply (Hgen _ _ Hr). simpl. lia.
Qed.

Lemma stage_slots st :
  stage_reachable f ok pool st ->
  (limiter st <= pool /\ length (running st) + length (sentl st) <= pool)%nat.
Proof.
  intros Hr. pose proof (stage_reachable_limiter st Hr) as Hl.
  destruct (stage_reachable_inv f ok pool st Hr) as (Heq & _). lia.
Qed.

Lemma stage_closed_final st st' :
  stage_reachable f ok pool st -> closes st = 1%nat -> ~ stage_step f ok pool st st'.
Proof.
  intros Hr Hc1 Hstep.
  destruct (stage_reachable_inv f ok pool st Hr) as (_ & _ & _ & Hpast & Hc & Hd).
  assert (Hdone : is_done (start st) = true).
  { destruct (is_done (start st)); [done|]. rewrite Hc1 in Hc. discriminate. }
  destruct (Hd Hdone) as [Hr0 Hs0].
  assert (Hp : past_loop (start st)) by (destruct (start st); done).
  destruct (Hpast Hp) as [_ Hb].
  clear -Hstep Hdone Hr0 Hs0 Hb. revert Hdone Hr0 Hs0 Hb.
  destruct Hstep; simpl; intros; try discriminate.
  - by destruct r1.
  - by destruct s1.
Qed.
End StageExtra.

(* ------------------------------------------------------------------ *)
(** ** Further theorems *)

(** [Reader.Start] with any reader whose reads each return at least one
    byte ends normally, and what it sends is exactly the bytes of the
    successive [buffer]s, the zero padding of short reads included, cut
    into chunks at newlines (each newline dropped), followed by the bytes
    left in [leftovers]: nothing is reordered, duplicated or lost in
    between. *)
Theorem reader_chunks_cover_buffers (bsize : nat) (reads : list read_event) :
  Forall good_read reads ->
  exists chunks lo,
    reader_start bsize reads = RDone chunks /\
    flat_chunks chunks ++ lo = concat (map (read_buffer bsize) reads).
Proof.
  intros Hg. destruct (reader_loop_buffers bsize reads [] [] Hg) as (chunks & lo & H1 & H2).
  exists chunks, lo. split; [done|]. rewrite H2. reflexivity.
Qed.

Lemma reader_chunks_cover_buffers_witness :
  exists chunks lo,
    reader_start 4 [RData (list_ascii_of_string ("a" ++ nl ++ "b"));
                    RData (list_ascii_of_string ("c" ++ nl))] = RDone chunks /\
    flat_chunks chunks ++ lo =
      concat (map (read_buffer 4) [RData (list_ascii_of_string ("a" ++ nl ++ "b"));
                                   RData (list_ascii_of_string ("c" ++ nl))]).
Proof.
  apply reader_chunks_cover_buffers. repeat constructor; simpl; discriminate.
Defined.

(** For a regular file read with a buffer of [bsize] bytes, [0 < bsize <=
    1 << 30] (so that every read but the last fills the buffer), the chunks
    sent by [Reader.Start], each followed by the newline it was cut at,
    make up a prefix of the file: the zero bytes of the last, short block
    never reach a chunk. *)
Theorem reader_regular_file_prefix (bsize : nat) (data : list ascii) :
  (0 < bsize)%nat -> Z.of_nat bsize <= maxRW ->
  exists chunks,
    reader_start bsize (file_reads bsize data) = RDone chunks /\
    flat_chunks chunks `prefix_of` data.
Proof.
  intros Hb Hmax. unfold file_reads.
  replace (read_size bsize) with bsize
    by (unfold read_size; by apply Z.leb_le in Hmax as ->).
  destruct (file_reads_fuel_buffers (length data) bsize data Hb ltac:(lia)) as [Hg [k Hk]].
  destruct (reader_loop_buffers bsize (file_reads_fuel (length data) bsize data) [] [] Hg)
    as (chunks & lo & H1 & H2).
  exists chunks. split; [done|].
  apply (flat_prefix_of_padded chunks lo data k). rewrite H2, Hk. reflexivity.
Qed.

Lemma reader_regular_file_prefix_witness :
  exists chunks,
    reader_start 3 (file_reads 3 (list_ascii_of_string ("ab" ++ nl ++ "cd" ++ nl ++ "e"))) =
      RDone chunks /\
    flat_chunks chunks `prefix_of` list_ascii_of_string ("ab" ++ nl ++ "cd" ++ nl ++ "e").
Proof. apply reader_regular_file_prefix; unfold maxRW; lia. Defined.

(** In [Reader.Start], after any number of reads that returned data, a read
    error other than EOF is fatal, whatever was sent before; and a read that
    returns no byte ends the input like EOF: the reads after it, errors
    included, are never made. *)
Theorem reader_error_fatal_empty_read_ends (bsize : nat) (pre post : list read_event) :
  Forall good_read pre ->
  reader_start bsize (pre ++ RError :: post) = RFatal /\
  reader_start bsize (pre ++ RData [] :: post) = reader_start bsize pre.
Proof. intros Hg. apply reader_loop_error_eof, Hg. Qed.

Lemma reader_error_fatal_empty_read_ends_witness :
  reader_start 4 [RData (list_ascii_of_string ("ab" ++ nl)); RError] = RFatal /\
  reader_start 4 [RData (list_ascii_of_string ("ab" ++ nl)); RData []; RError] =
    reader_start 4 [RData (list_ascii_of_string ("ab" ++ nl))].
Proof.
  apply (reader_error_fatal_empty_read_ends 4 [RData (list_ascii_of_string ("ab" ++ nl))]).
  repeat constructor; simpl; discriminate.
Defined.

(** The loop body of [Parser.Parse] on a non-comment line made of at least
    19 fields without a tab, joined by tabs, yields the record of fields 2
    and 4 with byte count [Atoi] of field 16 plus [Atoi] of field 18 (int64
    sum); fields past the nineteenth are ignored. *)
Theorem parse_line_fields (fields : list string) :
  (19 <= length fields)%nat ->
  Forall (fun f => no_byte tab f = true) fields ->
  is_comment (String.concat (String tab "") fields) = false ->
  parse_line (String.concat (String tab "") fields) =
    Some (Some (mkConn (nth 2 fields "") (nth 4 fields "")
                       (wrap64 (Atoi (nth 16 fields "") + Atoi (nth 18 fields ""))))).
Proof.
  intros Hlen Htab Hcom.
  assert (Hsplit : split_on tab (String.concat (String tab "") fields) = fields).
  { apply split_on_join; [|done]. intros ->. simpl in Hlen. lia. }
  destruct (String.concat (String tab "") fields) as [|a s] eqn:E.
  - simpl in Hsplit. rewrite <-Hsplit in Hlen. simpl in Hlen. lia.
  - unfold parse_line. simpl in Hcom. rewrite Hcom, Hsplit.
    destruct (lookup_lt_is_Some_2 fields 2 ltac:(lia)) as [o Ho].
    destruct (lookup_lt_is_Some_2 fields 4 ltac:(lia)) as [r Hr].
    destruct (lookup_lt_is_Some_2 fields 16 ltac:(lia)) as [b1 Hb1].
    destruct (lookup_lt_is_Some_2 fields 18 ltac:(lia)) as [b2 Hb2].
    rewrite Ho, Hr, Hb1, Hb2.
    by rewrite (nth_lookup_Some _ _ _ _ Ho), (nth_lookup_Some _ _ _ _ Hr),
      (nth_lookup_Some _ _ _ _ Hb1), (nth_lookup_Some _ _ _ _ Hb2).
Qed.

Lemma parse_line_fields_witness :
  parse_line (log_line "128.252.0.1" "10.0.0.2" "100" "50") =
    Some (Some (mkConn "128.252.0.1" "10.0.0.2" (wrap64 (Atoi "100" + Atoi "50")))).
Proof.
  apply (parse_line_fields
    ["1"; "C1"; "128.252.0.1"; "4000"; "10.0.0.2"; "80"; "tcp"; "http"; "0.5"; "9";
     "10"; "SF"; "T"; "0"; "ShADadfF"; "5"; "100"; "6"; "50"]).
  - simpl. lia.
  - repeat constructor.
  - reflexivity.
Defined.

(** [strconv.Atoi], as [Parse] uses it on the byte fields, reads a decimal
    numeral as its value, clamped to the largest int64 when it is larger;
    with a leading '-' it reads minus the value, clamped to the smallest
    int64. *)
Theorem Atoi_decimal (ds : list nat) :
  ds <> [] -> Forall (fun d => d < 10)%nat ds ->
  Atoi (digit_string ds) = Z.min (digits_value ds) int64_max /\
  Atoi (String "-" (digit_string ds)) = - Z.min (digits_value ds) two63.
Proof.
  intros Hne Hds.
  pose proof (parse_uint_digits_string ds 0 ltac:(unfold uint64_max, two64; lia) Hds) as Hp.
  pose proof (digits_fold_ge ds 0 ltac:(lia)) as Hge.
  unfold digits_value. set (v := fold_left (fun a d => a * 10 + Z.of_nat d) ds 0) in *.
  clearbody v.
  destruct ds as [|d ds']; [done|].
  destruct (digit_char_spec d ltac:(by inversion Hds)) as (_ & _ & Hm & Hpl).
  rewrite digit_string_cons in Hp |- *.
  set (X := String (digit_char d) (digit_string ds')) in *.
  assert (HX : ParseUint X = if v <=? uint64_max then UOk v else URange) by exact Hp.
  split.
  - unfold Atoi, X. rewrite Hm, Hpl. fold X. cbv zeta. rewrite HX.
    unfold int64_max, int64_min, uint64_max, two64, two63 in *.
    destruct (Z.leb_spec v (2 ^ 64 - 1)); [|lia].
    destruct (Z.leb_spec (2 ^ 63) v); cbn [negb andb]; lia.
  - change (Atoi (String "-" X)) with
      (match ParseUint X with
       | UOk un => if two63 <? un then int64_min else - un
       | USyntax => 0
       | URange => int64_min
       end).
    rewrite HX. unfold int64_max, int64_min, uint64_max, two64, two63 in *.
    destruct (Z.leb_spec v (2 ^ 64 - 1)); [|lia].
    destruct (Z.ltb_spec (2 ^ 63) v); lia.
Qed.

Lemma Atoi_decimal_witness :
  Atoi "150" = Z.min (digits_value [1; 5; 0]%nat) int64_max /\
  Atoi "-150" = - Z.min (digits_value [1; 5; 0]%nat) two63.
Proof.
  apply (Atoi_decimal [1; 5; 0]%nat).
  - discriminate.
  - repeat constructor; lia.
Defined.

(** However the records are cut into batches, the GlobalTally that
    [Combiner.Start] builds from the partial tallies of [Reducer.Reduce] is
    the tally [Reduce] makes of all the records as one batch. *)
Theorem reduce_batches_combine (batches : list (list conn)) :
  combine (map (fun b => map_to_list (Reduce b)) batches) = Reduce (concat batches).
Proof. apply combine_reduce_concat. Qed.

(** When every chunk parses, the GlobalTally is the tally of the records of
    the non-comment lines of all the chunks: the zero-valued records that
    [make([]conn, len(lines))] puts at the head of each batch are never
    credited to any address. *)
Theorem pipeline_tally (chunks : list (list ascii)) (batches : list (list conn)) :
  mapM Parse chunks = Some batches ->
  combine (map (fun b => map_to_list (Reduce b)) batches) =
  Reduce (concat (map chunk_records chunks)).
Proof.
  intros H. rewrite combine_reduce_concat, (mapM_Parse chunks batches H).
  unfold Reduce. apply reduce_zero_padded.
Qed.

Lemma pipeline_tally_witness :
  combine (map (fun b => map_to_list (Reduce b))
     [[zero_conn; mkConn "128.252.0.1" "10.0.0.2" 150]]) =
  Reduce (concat (map chunk_records
     [list_ascii_of_string (log_line "128.252.0.1" "10.0.0.2" "100" "50")])).
Proof. apply pipeline_tally. vm_compute. reflexivity. Defined.

(** [Combiner.Report] prints at most 10 lines, so does every run of the
    program, and the total [tbytes] it divides by is the int64 sum of all the
    values of the GlobalTally. *)
Theorem report_at_most_10_lines (l : list (string * Z)) :
  (length (Report l).1 <= 10)%nat /\
  (Report l).2 = wrap64 (tally_total l) /\
  (forall e filename bsize,
     match run e filename bsize with
     | Done lines => (length lines <= 10)%nat
     | _ => True
     end).
Proof.
  split_and!.
  - apply Report_count.
  - unfold Report. pose proof (report_scan_total l (repeat 0 (length l)) ∅ 0) as Ht.
    change (wrap64 0) with 0 in Ht.
    destruct (report_scan l (repeat 0 (length l)) ∅ 0) as [[keys sw] tb]. exact Ht.
  - intros e filename bsize. unfold run.
    destruct (String.eqb filename ""); [done|]. destruct (bsize <=? 0); [done|].
    destruct (GetReader e filename); try done.
    destruct (reader_start (Z.to_nat bsize) reads); [|done].
    destruct (mapM Parse chunks) as [batches|]; [|done].
    apply Report_count.
Qed.

(** When the totals of the GlobalTally are positive and pairwise distinct,
    [Combiner.Report] prints each address with its total, largest first,
    the first 10 of them, and divides by the int64 sum of the totals. *)
Theorem Report_top10_distinct (l : list (string * Z)) :
  NoDup (map snd l) -> Forall (fun kv => 0 < kv.2) l ->
  Report l = (take 10 (sort_pairs l), wrap64 (tally_total l)).
Proof.
  intros Hnd Hpos. unfold Report.
  pose proof (report_scan_keys l (repeat 0 (length l)) ∅ 0) as Hk.
  pose proof (report_scan_total l (repeat 0 (length l)) ∅ 0) as Ht.
  change (wrap64 0) with 0 in Ht.
  destruct (report_scan_distinct l (repeat 0 (length l)) ∅ 0) as [H1 H2].
  { exact Hnd. }
  { intros v _. apply lookup_empty. }
  destruct (report_scan l (repeat 0 (length l)) ∅ 0) as [[keys sw] tb].
  simpl in Hk, Ht, H1, H2. subst keys tb. f_equal.
  assert (Hvals : Forall (fun y => 0 < y) (map snd l)).
  { apply Forall_forall. intros y (kv & -> & Hin)%list_elem_of_fmap.
    rewrite Forall_forall in Hpos. by apply Hpos. }
  rewrite sort_desc_zeros by done. rewrite <-sort_pairs_values.
  apply print_keys_sorted; [| lia |].
  - rewrite H2; [apply lookup_empty|]. intros (kv & Hkv & Hin)%in_map_iff.
    rewrite Forall_forall in Hpos. specialize (Hpos kv (proj2 (list_elem_of_In _ _) Hin)).
    lia.
  - intros k v Hin. apply H1.
    apply (Permutation_in _ (sort_pairs_perm l)), Hin.
Qed.

Lemma Report_top10_distinct_witness :
  Report [("128.252.0.1", 5); ("128.252.0.2", 7)] =
    (take 10 (sort_pairs [("128.252.0.1", 5); ("128.252.0.2", 7)]),
     wrap64 (tally_total [("128.252.0.1", 5); ("128.252.0.2", 7)])).
Proof.
  apply Report_top10_distinct.
  - apply (bool_decide_unpack _). vm_compute. reflexivity.
  - repeat constructor; simpl; lia.
Defined.

(** When every total of the GlobalTally is 0 (addresses seen only in
    connections of zero bytes), [Combiner.Report] prints the first address
    listed once for each zero in [keys], that is twice per entry (the
    entries' own zeros and the zeros of [make([]int64, len(tt))]), up to
    10 lines, and no other address. *)
Theorem Report_zero_totals (k : string) (rest : list (string * Z)) :
  Forall (fun kv => kv.2 = 0) rest ->
  Report ((k, 0) :: rest) =
    (repeat (k, 0) (Nat.min (2 * S (length rest)) 10), 0).
Proof.
  intros Hz. unfold Report.
  pose proof (report_scan_keys ((k, 0) :: rest) (repeat 0 (length ((k, 0) :: rest))) ∅ 0) as Hk.
  pose proof (report_scan_total ((k, 0) :: rest) (repeat 0 (length ((k, 0) :: rest))) ∅ 0)
    as Ht.
  change (wrap64 0) with 0 in Ht.
  assert (Hsw : (report_scan ((k, 0) :: rest) (repeat 0 (length ((k, 0) :: rest))) ∅ 0).1.2
                  !! 0 = Some [k]).
  { apply report_scan_first, lookup_empty. }
  assert (Htot : tally_total rest = 0).
  { clear -Hz. induction rest as [|kv rest IH]; [done|].
    apply Forall_cons in Hz as [H1 H2]. simpl. rewrite H1, IH by done. done. }
  assert (Hvals : map snd rest = repeat 0 (length rest)).
  { clear -Hz. induction rest as [|kv rest IH]; [done|].
    apply Forall_cons in Hz as [H1 H2]. simpl. by rewrite H1, IH. }
  destruct (report_scan _ _ ∅ 0) as [[keys sw] tb].
  simpl in Hk, Ht, Hsw. subst keys tb.
  rewrite Hvals, Htot.
  change (0 :: repeat 0 (length rest) ++ 0 :: repeat 0 (length rest)) with
    (repeat 0 (S (length rest)) ++ repeat 0 (S (length rest))).
  rewrite <-repeat_app, sort_desc_repeat0, (print_keys_zero_key sw k) by (done || lia).
  f_equal. f_equal. lia.
Qed.

Lemma Report_zero_totals_witness :
  Report [("128.252.0.1", 0); ("128.252.0.2", 0)] =
    (repeat ("128.252.0.1", 0) (Nat.min (2 * S (length [("128.252.0.2", 0)])) 10), 0).
Proof. apply Report_zero_totals. repeat constructor. Defined.

(** In both worker-pool stages, [limiter] never holds more than the pool
    size of tokens, so at most [ParserPool] (resp. [ReducerPool]) tasks have
    been spawned and not yet released their slot. *)
Theorem stage_tasks_bounded_by_pool :
  (forall st, stage_reachable Parse Parse_ok ParserPool st ->
     (limiter st <= ParserPool /\
      length (running st) + length (sentl st) <= ParserPool)%nat) /\
  (forall st, stage_reachable Reduce Reduce_ok ReducerPool st ->
     (limiter st <= ReducerPool /\
      length (running st) + length (sentl st) <= ReducerPool)%nat).
Proof. split; intros st Hr; eapply stage_slots; exact Hr. Qed.

Lemma stage_tasks_bounded_by_pool_witness :
  (limiter (mkStage (B:=gmap string Z) [] false SLoop
              [[mkConn "128.252.0.1" "10.0.0.2" 3]; [mkConn "128.252.0.5" "10.0.0.2" 4]]
              [] [] 2 [] 0
              [[mkConn "128.252.0.1" "10.0.0.2" 3]; [mkConn "128.252.0.5" "10.0.0.2" 4]])
     <= ReducerPool /\
   length (running (mkStage (B:=gmap string Z) [] false SLoop
              [[mkConn "128.252.0.1" "10.0.0.2" 3]; [mkConn "128.252.0.5" "10.0.0.2" 4]]
              [] [] 2 [] 0
              [[mkConn "128.252.0.1" "10.0.0.2" 3]; [mkConn "128.252.0.5" "10.0.0.2" 4]]))
   + length (sentl (mkStage (B:=gmap string Z) [] false SLoop
              [[mkConn "128.252.0.1" "10.0.0.2" 3]; [mkConn "128.252.0.5" "10.0.0.2" 4]]
              [] [] 2 [] 0
              [[mkConn "128.252.0.1" "10.0.0.2" 3]; [mkConn "128.252.0.5" "10.0.0.2" 4]]))
     <= ReducerPool)%nat.
Proof.
  apply (proj2 stage_tasks_bounded_by_pool).
  apply stage_two_tasks_running. unfold ReducerPool. lia.
Defined.

(** Once a worker-pool stage has closed its [outq], no further step is
    possible: no task is left to send on the closed channel (which would
    panic) and [Start] has returned. *)
Theorem stage_no_step_after_close :
  (forall st st', stage_reachable Parse Parse_ok ParserPool st -> closes st = 1%nat ->
     ~ stage_step Parse Parse_ok ParserPool st st') /\
  (forall st st', stage_reachable Reduce Reduce_ok ReducerPool st -> closes st = 1%nat ->
     ~ stage_step Reduce Reduce_ok ReducerPool st st').
Proof. split; intros st st'; apply stage_closed_final. Qed.

Lemma stage_no_step_after_close_witness :
  ~ stage_step Parse Parse_ok ParserPool
      (mkStage [] true SDone [] []
         [list_ascii_of_string (log_line "128.252.0.1" "10.0.0.2" "1" "2")] 0
         [Parse (list_ascii_of_string (log_line "128.252.0.1" "10.0.0.2" "1" "2"))] 1
         [list_ascii_of_string (log_line "128.252.0.1" "10.0.0.2" "1" "2")])
      (mkStage [] true SDone [] []
         [list_ascii_of_string (log_line "128.252.0.1" "10.0.0.2" "1" "2")] 0
         [Parse (list_ascii_of_string (log_line "128.252.0.1" "10.0.0.2" "1" "2"));
          Parse (list_ascii_of_string (log_line "128.252.0.1" "10.0.0.2" "1" "2"))] 1
         [list_ascii_of_string (log_line "128.252.0.1" "10.0.0.2" "1" "2")]).
Proof.
  apply (proj1 stage_no_step_after_close).
  - apply stage_one_item_closed; [vm_compute; reflexivity|unfold ParserPool; lia].
  - reflexivity.
Defined.
